(** * RRefContext: the node-local tracker of distributed remote references

    A shallow embedding of [torch/csrc/distributed/rpc/rref_context.h] and
    [rref_context.cpp].  The tables of the context are finite maps and finite
    sets, every member function is a computation in a state-and-exception
    monad over the context, and a failed [TORCH_CHECK] or
    [TORCH_INTERNAL_ASSERT] is a thrown [failure] that carries the context as
    it stood at the throw. *)

From Stdlib Require Import ZArith Lia.
From stdpp Require Import gmap strings list fin_maps.

Local Open Scope Z_scope.

(** ** Identifiers *)

(** Modelled from the spec: [types.h] is not among the sources.  A worker id
    is a 16-bit integer, which the context only copies and compares; a local
    id is a 64-bit unsigned counter value. *)
Definition worker_id_t : Type := Z.
Definition local_id_t : Type := Z.
Definition thread_id : Type := nat.

Definition local_id_modulus : Z := 2 ^ 64.

(** Modelled from the spec: [GloballyUniqueId] is declared in [types.h].
    [RRefId] and [ForkId] are this one type, the pair of the worker that
    minted the identifier and its local counter value, with equality and a
    hash. *)
Record GloballyUniqueId : Type := mkGloballyUniqueId {
  worker_id : worker_id_t;
  local_id : local_id_t
}.

#[global] Instance GloballyUniqueId_eq_dec : EqDecision GloballyUniqueId.
Proof. solve_decision. Defined.

#[global] Instance GloballyUniqueId_countable : Countable GloballyUniqueId.
Proof.
  apply (inj_countable'
           (λ i, (worker_id i, local_id i))
           (λ p, mkGloballyUniqueId p.1 p.2)).
  by intros [].
Defined.

Abbreviation RRefId := GloballyUniqueId (only parsing).
Abbreviation ForkId := GloballyUniqueId (only parsing).

(** ** Reference objects *)

(** The two instantiations of the templates, [IValue] and [py::object]. *)
Inductive payload : Type := IValue | PyObject.

#[global] Instance payload_eq_dec : EqDecision payload.
Proof. solve_decision. Defined.

(** Modelled from the spec: [rref.h] is not among the sources.  A reference is
    an Owner (with [rref_id], its fork id being the [rref_id] itself) or a
    User (with [rref_id], its own [fork_id] and the owner's worker id); the
    constructor arguments are the ones [rref_context.cpp] passes. *)
Inductive RRef : Type :=
| OwnerRRef (T : payload) (ownerId : worker_id_t) (rrefId : RRefId)
| UserRRef (T : payload) (ownerId : worker_id_t) (rrefId : RRefId)
    (forkId : ForkId).

Definition owner (r : RRef) : worker_id_t :=
  match r with
  | OwnerRRef _ o _ => o
  | UserRRef _ o _ _ => o
  end.

Definition rrefId (r : RRef) : RRefId :=
  match r with
  | OwnerRRef _ _ i => i
  | UserRRef _ _ i _ => i
  end.

Definition isOwner (r : RRef) : bool :=
  match r with
  | OwnerRRef _ _ _ => true
  | UserRRef _ _ _ _ => false
  end.

Definition forkId (r : RRef) : ForkId :=
  match r with
  | OwnerRRef _ _ i => i
  | UserRRef _ _ _ f => f
  end.

(** A [std::shared_ptr<RRef>]: the address of the object it points to, and
    the object.  The context never writes to a reference object, so the
    object found behind an address is the one constructed there; two pointers
    denote the same object exactly when their addresses agree. *)
Record shared_ptr : Type := mkPtr {
  addr : nat;
  pointee : RRef
}.

(** [std::dynamic_pointer_cast<OwnerRRef<T>>]: the pointer itself when the
    object is an [OwnerRRef<T>], the null pointer otherwise. *)
Definition dynamic_pointer_cast_Owner (T : payload) (p : shared_ptr)
  : option shared_ptr :=
  match pointee p with
  | OwnerRRef T' _ _ => if decide (T' = T) then Some p else None
  | UserRRef _ _ _ _ => None
  end.

(** Modelled from the spec: [RRefForkData] is declared in [rref.h].  The
    descriptor of a fork holds the [rref_id], the new [fork_id] and the
    parent, the worker that forks. *)
Record RRefForkData : Type := mkRRefForkData {
  rrefId_ : RRefId;
  forkId_ : ForkId;
  parent_ : worker_id_t
}.

(** ** Messages and the agent *)

(** Modelled from the spec: [rref_proto.h] and [message.h] are not among the
    sources.  The wire messages of the protocol, with their payloads. *)
Inductive Message : Type :=
| RREF_USER_ACCEPT (rid : RRefId) (fid : ForkId)
| RREF_FORK_NOTIFY (rid : RRefId) (fid : ForkId) (forkDst : worker_id_t)
| RREF_FORK_ACCEPT (fid : ForkId)
| RREF_USER_DELETE (rid : RRefId) (fid : ForkId)
| EXCEPTION (err : string).

(** Modelled from the spec: [WorkerInfo] is declared in [rpc_agent.h]; a
    worker is identified by a small integer and a name (the two fields
    [rref_context.h] reads). *)
Record WorkerInfo : Type := mkWorkerInfo {
  name_ : string;
  id_ : worker_id_t
}.

(** The two closures [rref_context.cpp] registers on the future of a send,
    with the values they capture. *)
Inductive Callback : Type :=
| OnAckDelForkOfOwner (rid : RRefId) (fid : ForkId)
| OnForkAcceptFinishForkRequest.

(** The agent as the context sees it: its own [WorkerInfo], the messages
    handed to [send] in order (the future of a send is its position in that
    list) and the callbacks added to those futures. *)
Record RpcAgent : Type := mkRpcAgent {
  workerInfo_ : WorkerInfo;
  sent_ : list (worker_id_t * Message);
  callbacks_ : list (nat * Callback)
}.

(** ** The context *)

Record RRefContext : Type := mkRRefContext {
  agent_ : RpcAgent;
  nextLocalId_ : local_id_t;
  (* the thread_local vector, one instance per thread; a thread that has not
     touched it yet sees the empty vector *)
  rrefArgs_ : gmap thread_id (list shared_ptr);
  pendingRRefArgs_ : gmap Z (list shared_ptr);
  owners_ : gmap RRefId shared_ptr;
  forks_ : gmap RRefId (gset ForkId);
  pendingUsers_ : gmap ForkId shared_ptr;
  pendingForkRequests_ : gmap ForkId shared_ptr;
  pendingAcceptedUsers_ : gset ForkId;
  (* the next address operator new hands out *)
  nextAddr_ : nat
}.

(** Field updates. *)
Definition set_agent (f : RpcAgent → RpcAgent) (c : RRefContext)
  : RRefContext :=
  mkRRefContext (f (agent_ c)) (nextLocalId_ c) (rrefArgs_ c)
    (pendingRRefArgs_ c) (owners_ c) (forks_ c) (pendingUsers_ c)
    (pendingForkRequests_ c) (pendingAcceptedUsers_ c) (nextAddr_ c).

Definition set_nextLocalId (f : local_id_t → local_id_t) (c : RRefContext)
  : RRefContext :=
  mkRRefContext (agent_ c) (f (nextLocalId_ c)) (rrefArgs_ c)
    (pendingRRefArgs_ c) (owners_ c) (forks_ c) (pendingUsers_ c)
    (pendingForkRequests_ c) (pendingAcceptedUsers_ c) (nextAddr_ c).

Definition set_rrefArgs
  (f : gmap thread_id (list shared_ptr) → gmap thread_id (list shared_ptr))
  (c : RRefContext) : RRefContext :=
  mkRRefContext (agent_ c) (nextLocalId_ c) (f (rrefArgs_ c))
    (pendingRRefArgs_ c) (owners_ c) (forks_ c) (pendingUsers_ c)
    (pendingForkRequests_ c) (pendingAcceptedUsers_ c) (nextAddr_ c).

Definition set_pendingRRefArgs
  (f : gmap Z (list shared_ptr) → gmap Z (list shared_ptr))
  (c : RRefContext) : RRefContext :=
  mkRRefContext (agent_ c) (nextLocalId_ c) (rrefArgs_ c)
    (f (pendingRRefArgs_ c)) (owners_ c) (forks_ c) (pendingUsers_ c)
    (pendingForkRequests_ c) (pendingAcceptedUsers_ c) (nextAddr_ c).

Definition set_owners
  (f : gmap RRefId shared_ptr → gmap RRefId shared_ptr)
  (c : RRefContext) : RRefContext :=
  mkRRefContext (agent_ c) (nextLocalId_ c) (rrefArgs_ c)
    (pendingRRefArgs_ c) (f (owners_ c)) (forks_ c) (pendingUsers_ c)
    (pendingForkRequests_ c) (pendingAcceptedUsers_ c) (nextAddr_ c).

Definition set_forks
  (f : gmap RRefId (gset ForkId) → gmap RRefId (gset ForkId))
  (c : RRefContext) : RRefContext :=
  mkRRefContext (agent_ c) (nextLocalId_ c) (rrefArgs_ c)
    (pendingRRefArgs_ c) (owners_ c) (f (forks_ c)) (pendingUsers_ c)
    (pendingForkRequests_ c) (pendingAcceptedUsers_ c) (nextAddr_ c).

Definition set_pendingUsers
  (f : gmap ForkId shared_ptr → gmap ForkId shared_ptr)
  (c : RRefContext) : RRefContext :=
  mkRRefContext (agent_ c) (nextLocalId_ c) (rrefArgs_ c)
    (pendingRRefArgs_ c) (owners_ c) (forks_ c) (f (pendingUsers_ c))
    (pendingForkRequests_ c) (pendingAcceptedUsers_ c) (nextAddr_ c).

Definition set_pendingForkRequests
  (f : gmap ForkId shared_ptr → gmap ForkId shared_ptr)
  (c : RRefContext) : RRefContext :=
  mkRRefContext (agent_ c) (nextLocalId_ c) (rrefArgs_ c)
    (pendingRRefArgs_ c) (owners_ c) (forks_ c) (pendingUsers_ c)
    (f (pendingForkRequests_ c)) (pendingAcceptedUsers_ c) (nextAddr_ c).

Definition set_pendingAcceptedUsers
  (f : gset ForkId → gset ForkId) (c : RRefContext) : RRefContext :=
  mkRRefContext (agent_ c) (nextLocalId_ c) (rrefArgs_ c)
    (pendingRRefArgs_ c) (owners_ c) (forks_ c) (pendingUsers_ c)
    (pendingForkRequests_ c) (f (pendingAcceptedUsers_ c)) (nextAddr_ c).

Definition set_nextAddr (f : nat → nat) (c : RRefContext) : RRefContext :=
  mkRRefContext (agent_ c) (nextLocalId_ c) (rrefArgs_ c)
    (pendingRRefArgs_ c) (owners_ c) (forks_ c) (pendingUsers_ c)
    (pendingForkRequests_ c) (pendingAcceptedUsers_ c) (f (nextAddr_ c)).

(** The context right after [initInstance(agent)]: every table empty, the
    statically initialised counter at zero. *)
Definition initial (self : WorkerInfo) : RRefContext :=
  mkRRefContext (mkRpcAgent self [] []) 0 ∅ ∅ ∅ ∅ ∅ ∅ ∅ 0%nat.

(** ** The monad of member functions *)

Inductive failure : Type :=
| TorchCheck (msg : string)
| InternalAssert (msg : string)
| RuntimeError (msg : string).

Inductive outcome (A : Type) : Type :=
| Ok (a : A) (c : RRefContext)
| Throw (e : failure) (c : RRefContext).

Arguments Ok {A} a c.
Arguments Throw {A} e c.

Definition M (A : Type) : Type := RRefContext → outcome A.

Definition ret {A} (a : A) : M A := λ c, Ok a c.

Definition bind {A B} (m : M A) (k : A → M B) : M B :=
  λ c, match m c with
       | Ok a c' => k a c'
       | Throw e c' => Throw e c'
       end.

Definition throw {A} (e : failure) : M A := λ c, Throw e c.
Definition gets {A} (f : RRefContext → A) : M A := λ c, Ok (f c) c.
Definition modify (f : RRefContext → RRefContext) : M unit :=
  λ c, Ok tt (f c).

Notation "'let!' x ':=' m 'in' k" := (bind m (λ x, k))
  (at level 10, x name, m at level 100, k at level 200).
Notation "m ';;!' k" := (bind m (λ _, k))
  (at level 100, k at level 200, right associativity).

Definition TORCH_CHECK (cond : bool) (msg : string) : M unit :=
  if cond then ret tt else throw (TorchCheck msg).

Definition TORCH_INTERNAL_ASSERT (cond : bool) (msg : string) : M unit :=
  if cond then ret tt else throw (InternalAssert msg).

(** The context a computation ends in, thrown or not, and its result. *)
Definition final {A} (o : outcome A) : RRefContext :=
  match o with
  | Ok _ c => c
  | Throw _ c => c
  end.

Definition result {A} (o : outcome A) : option A :=
  match o with
  | Ok a _ => Some a
  | Throw _ _ => None
  end.

Definition fails {A} (o : outcome A) : Prop :=
  match o with
  | Ok _ _ => False
  | Throw _ _ => True
  end.

(** ** Primitives: the agent, the allocator, the heap *)

(** [getWorkerId()]: the id the agent reports for this worker. *)
Definition getWorkerId : M worker_id_t :=
  gets (λ c, id_ (workerInfo_ (agent_ c))).

(** [genGloballyUniqueId()]: the pair of this worker's id and the value of
    [nextLocalId_++], a post-increment of a 64-bit unsigned counter. *)
Definition genGloballyUniqueId : M GloballyUniqueId :=
  let! w := getWorkerId in
  let! n := gets nextLocalId_ in
  modify (set_nextLocalId (λ n, (n + 1) mod local_id_modulus)) ;;!
  ret (mkGloballyUniqueId w n).

(** [std::shared_ptr<..>(new ..)]: a fresh address for a new object. *)
Definition new (obj : RRef) : M shared_ptr :=
  let! a := gets nextAddr_ in
  modify (set_nextAddr S) ;;!
  ret (mkPtr a obj).

(** [agent_->send(agent_->getWorkerInfo(dst), message)]: the message is
    queued for [dst]; the future returned is its position in the queue. *)
Definition send (dst : worker_id_t) (m : Message) : M nat :=
  let! fm := gets (λ c, length (sent_ (agent_ c))) in
  modify (set_agent (λ a,
    mkRpcAgent (workerInfo_ a) (sent_ a ++ [(dst, m)]) (callbacks_ a))) ;;!
  ret fm.

(** [fm->addCallback(cb)]. *)
Definition addCallback (fm : nat) (cb : Callback) : M unit :=
  modify (set_agent (λ a,
    mkRpcAgent (workerInfo_ a) (sent_ a) (callbacks_ a ++ [(fm, cb)]))).

(** Modelled from the spec: [RRef::fork] is defined in [rref.cpp], which is
    not among the sources.  It mints a new fork id and returns the descriptor
    of the fork; it does not touch the tables of the context. *)
Definition fork (r : RRef) : M RRefForkData :=
  let! f := genGloballyUniqueId in
  let! w := getWorkerId in
  ret (mkRRefForkData (rrefId r) f w).

(** The calling thread's [rrefArgs_]. *)
Definition rrefArgs_of (t : thread_id) (c : RRefContext) : list shared_ptr :=
  default [] (rrefArgs_ c !! t).

(** ** Member functions of [RRefContext] *)

Definition handleException (message : Message) : M unit :=
  match message with
  | EXCEPTION err => throw (RuntimeError err)
  | _ => ret tt
  end.

(** The three-argument overload.  The User is constructed before the lock
    is taken, so the throw of the second check happens after the
    allocation. *)
Definition createUserRRef (T : payload) (ownerId : worker_id_t)
  (rid : RRefId) (fid : ForkId) : M shared_ptr :=
  let! self := getWorkerId in
  TORCH_CHECK (bool_decide (ownerId ≠ self))
    "RRef owner cannot create user RRef." ;;!
  let! userRRef := new (UserRRef T ownerId rid fid) in
  let! pendingUsers := gets pendingUsers_ in
  TORCH_CHECK (bool_decide (pendingUsers !! fid = None))
    "Inconsistent state, attempt to create the same UserRRef twice." ;;!
  let! pendingAcceptedUsers := gets pendingAcceptedUsers_ in
  (if decide (fid ∈ pendingAcceptedUsers)
   then (* RREF_USER_ACCEPT arrived before the UserRRef was created *)
     modify (set_pendingAcceptedUsers (λ s, s ∖ {[fid]}))
   else (* UserRRef created before receiving RREF_USER_ACCEPT *)
     modify (set_pendingUsers (λ m, <[fid := userRRef]> m))) ;;!
  ret userRRef.

(** The result is a [shared_ptr<OwnerRRef<T>>], which the cast of an
    existing entry can leave null. *)
Definition getOrCreateOwnerRRef (T : payload) (rid : RRefId)
  : M (option shared_ptr) :=
  let! owners := gets owners_ in
  match owners !! rid with
  | None =>
      let! self := getWorkerId in
      let! rref := new (OwnerRRef T self rid) in
      modify (set_owners (λ m, <[rrefId (pointee rref) := rref]> m)) ;;!
      ret (Some rref)
  | Some existing => ret (dynamic_pointer_cast_Owner T existing)
  end.

Definition getOrCreateRRef (T : payload) (ownerId : worker_id_t)
  (rid : RRefId) (fid : ForkId) : M (option shared_ptr) :=
  let! self := getWorkerId in
  if decide (ownerId = self)
  then getOrCreateOwnerRRef T rid
  else let! u := createUserRRef T ownerId rid fid in ret (Some u).

(** [auto& rrefForks = forks_[rrefId]] creates an empty set for a key that
    has none, before the assertion is evaluated. *)
Definition addForkOfOwner (rid : RRefId) (fid : ForkId) : M unit :=
  modify (set_forks (λ m,
    match m !! rid with
    | None => <[rid := ∅]> m
    | Some _ => m
    end)) ;;!
  let! forks := gets forks_ in
  let rrefForks : gset ForkId := default ∅ (forks !! rid) in
  TORCH_INTERNAL_ASSERT (bool_decide (fid ∉ rrefForks))
    "Got fork notification twice on the same RRef " ;;!
  modify (set_forks (λ m, <[rid := rrefForks ∪ {[fid]}]> m)).

(** [rrefForks] is a reference into [forks_]; the element erased from it is
    [rrefId], as the source has it. *)
Definition delForkOfOwner (rid : RRefId) (fid : ForkId) : M unit :=
  let! forks := gets forks_ in
  match forks !! rid with
  | None =>
      throw (InternalAssert
        "Inconsistent states, deleting a fork before the owner knows it.")
  | Some rrefForks =>
      TORCH_INTERNAL_ASSERT (bool_decide (fid ∈ rrefForks))
        "Attempt to delete a non-exist fork " ;;!
      let rrefForks' : gset ForkId := rrefForks ∖ {[rid]} in
      modify (set_forks (λ m, <[rid := rrefForks']> m)) ;;!
      if decide (rrefForks' = ∅)
      then
        modify (set_owners (λ m, delete rid m)) ;;!
        modify (set_forks (λ m, delete rid m))
      else ret tt
  end.

Definition acceptUserRRef (rid : RRefId) (fid : ForkId) : M Message :=
  addForkOfOwner rid fid ;;!
  ret (RREF_USER_ACCEPT rid fid).

Definition acceptForkRequest (rid : RRefId) (fid : ForkId)
  (forkDst : worker_id_t) : M Message :=
  let! m := acceptUserRRef rid fid in
  let! fm := send forkDst m in
  addCallback fm (OnAckDelForkOfOwner rid fid) ;;!
  ret (RREF_FORK_ACCEPT fid).

Definition finishForkRequest (fid : ForkId) : M unit :=
  let! pendingForkRequests := gets pendingForkRequests_ in
  TORCH_INTERNAL_ASSERT (bool_decide (is_Some (pendingForkRequests !! fid)))
    "Cannot finish a non-exist fork request." ;;!
  modify (set_pendingForkRequests (λ m, delete fid m)).

Definition finishUserRRef (rid : RRefId) (fid : ForkId) : M unit :=
  let! pendingAcceptedUsers := gets pendingAcceptedUsers_ in
  TORCH_INTERNAL_ASSERT (bool_decide (fid ∉ pendingAcceptedUsers))
    "Inconsistent state, attempt to accept the same UserRRef twice." ;;!
  let! pendingUsers := gets pendingUsers_ in
  match pendingUsers !! fid with
  | Some user =>
      TORCH_INTERNAL_ASSERT (bool_decide (rrefId (pointee user) = rid))
        "Attempt to accept a fork with incorrect RRefId." ;;!
      (* UserRRef created before receiving RREF_USER_ACCEPT *)
      modify (set_pendingUsers (λ m, delete fid m))
  | None =>
      (* RREF_USER_ACCEPT arrives before the UserRRef is created *)
      modify (set_pendingAcceptedUsers (λ s, s ∪ {[fid]}))
  end.

Definition forkTo (t : thread_id) (rref : shared_ptr) (forkDst : worker_id_t)
  : M RRefForkData :=
  (* keep rref arguments alive *)
  modify (set_rrefArgs (λ m, <[t := default [] (m !! t) ++ [rref]]> m)) ;;!
  let! forkRequest := fork (pointee rref) in
  (if decide (owner (pointee rref) ≠ forkDst)
   then
     if isOwner (pointee rref)
     then (* fork from owner *)
       let! m := acceptUserRRef (rrefId_ forkRequest) (forkId_ forkRequest) in
       let! fm := send forkDst m in
       addCallback fm
         (OnAckDelForkOfOwner (rrefId_ forkRequest) (forkId_ forkRequest))
     else (* fork from user: pin rref until the owner accepts the fork *)
       modify (set_pendingForkRequests
                 (λ m, <[forkId_ forkRequest := rref]> m)) ;;!
       let! fm := send (owner (pointee rref))
                    (RREF_FORK_NOTIFY (rrefId_ forkRequest)
                       (forkId_ forkRequest) forkDst) in
       addCallback fm OnForkAcceptFinishForkRequest
   else ret tt) ;;!
  ret forkRequest.

(** [pendingRRefArgs_[messageId] = std::move(rrefArgs_); rrefArgs_.clear()]
    on the calling thread's vector. *)
Definition addRRefArgs (t : thread_id) (messageId : Z) : M unit :=
  let! pendingRRefArgs := gets pendingRRefArgs_ in
  TORCH_INTERNAL_ASSERT (bool_decide (pendingRRefArgs !! messageId = None))
    "Cannot set RRef args on the same message twice." ;;!
  let! args := gets (rrefArgs_of t) in
  modify (set_pendingRRefArgs (λ m, <[messageId := args]> m)) ;;!
  modify (set_rrefArgs (λ m, <[t := []]> m)).

Definition delRRefArgs (messageId : Z) : M unit :=
  let! pendingRRefArgs := gets pendingRRefArgs_ in
  TORCH_INTERNAL_ASSERT (bool_decide (is_Some (pendingRRefArgs !! messageId)))
    "Attempt to delete RRef args for non-exist message." ;;!
  modify (set_pendingRRefArgs (λ m, delete messageId m)).

(** What a callback does when the reply [message] of its send arrives.
    Modelled from the spec: [RRefForkAccept::fromMessage] is not among the
    sources; the reply it decodes is a [FORK_ACCEPT] carrying the fork id,
    and a reply of another kind is taken to be rejected. *)
Definition runCallback (cb : Callback) (message : Message) : M unit :=
  handleException message ;;!
  match cb with
  | OnAckDelForkOfOwner rid fid => delForkOfOwner rid fid
  | OnForkAcceptFinishForkRequest =>
      match message with
      | RREF_FORK_ACCEPT fid => finishForkRequest fid
      | _ => throw (InternalAssert "RRefForkAccept::fromMessage")
      end
  end.

(** A member function called [k] times in a row, with the results in call
    order. *)
Fixpoint call_k {A} (k : nat) (m : M A) : M (list A) :=
  match k with
  | O => ret []
  | S k' =>
      let! a := m in
      let! rest := call_k k' m in
      ret (a :: rest)
  end.

(** The contexts an interleaving of successful [createUserRRef] and
    [finishUserRRef] calls can reach from the initial one. *)
Inductive reachable (self : WorkerInfo) : RRefContext → Prop :=
| reach_initial : reachable self (initial self)
| reach_createUserRRef T ownerId rid fid c u c' :
    reachable self c →
    createUserRRef T ownerId rid fid c = Ok u c' →
    reachable self c'
| reach_finishUserRRef rid fid c c' :
    reachable self c →
    finishUserRRef rid fid c = Ok tt c' →
    reachable self c'.

(** No fork id is a key of [pendingUsers_] and a member of
    [pendingAcceptedUsers_] at once. *)
Definition pending_disjoint (c : RRefContext) : Prop :=
  ∀ fid, ¬ (is_Some (pendingUsers_ c !! fid) ∧ fid ∈ pendingAcceptedUsers_ c).

(** ** Concrete contexts used in the examples *)

Module Scenario.

Definition worker0 : WorkerInfo := mkWorkerInfo "worker0" 0.
Definition worker1 : WorkerInfo := mkWorkerInfo "worker1" 1.

Definition rref_0_1 : RRefId := mkGloballyUniqueId 0 1.
Definition fork_1_2 : ForkId := mkGloballyUniqueId 1 2.
Definition fork_1_7 : ForkId := mkGloballyUniqueId 1 7.

(** Worker 0 owns [(0,1)] and has registered the single fork [(1,2)]. *)
Definition owner_with_one_fork : RRefContext :=
  final (addForkOfOwner rref_0_1 fork_1_2
           (final (getOrCreateOwnerRRef IValue rref_0_1 (initial worker0)))).

(** Worker 1 has constructed the user [(rref=(0,1), fork=(1,2))] of worker 0
    and not yet seen its accept. *)
Definition user_created : RRefContext :=
  final (createUserRRef IValue 0 rref_0_1 fork_1_2 (initial worker1)).

(** Worker 1 received the accept of [(1,2)] before constructing the user. *)
Definition accept_arrived_first : RRefContext :=
  final (finishUserRRef rref_0_1 fork_1_2 (initial worker1)).

(** Worker 1 after the accept of the created user, and after one more. *)
Definition user_accepted : RRefContext :=
  final (finishUserRRef rref_0_1 fork_1_2 user_created).

Definition user_accepted_twice : RRefContext :=
  final (finishUserRRef rref_0_1 fork_1_2 user_accepted).

(** Thread 0 of worker 1 has used its user as an argument of a call to the
    owner, and then dispatched that call as message 42. *)
Definition the_user : shared_ptr :=
  mkPtr 0 (UserRRef IValue 0 rref_0_1 fork_1_2).

Definition argument_prepared : RRefContext :=
  final (forkTo 0%nat the_user 0 user_created).

Definition argument_pinned : RRefContext :=
  final (addRRefArgs 0%nat 42 argument_prepared).

End Scenario.

(** ** The rest of the interface *)

(** The constructor: the agent is stored, every table starts empty.  The
    static counter and the thread-local vectors are still at their static
    initial values, as only member functions of the one instance write
    them. *)
Definition construct (agent : RpcAgent) : RRefContext :=
  mkRRefContext agent 0 ∅ ∅ ∅ ∅ ∅ ∅ ∅ 0%nat.

(** [initInstance(agent)] on the static [context_]; a null [unique_ptr] or
    [shared_ptr] is [None].  The result is the new value of [context_]. *)
Definition initInstance (agent : option RpcAgent)
  (context_ : option RRefContext) : failure + option RRefContext :=
  match context_ with
  | Some _ => inl (TorchCheck "Can only initialize RRefContext once.")
  | None =>
      match agent with
      | None =>
          inl (TorchCheck
                 "RRefContext requires a non-null RpcAgent shared_ptr.")
      | Some a => inr (Some (construct a))
      end
  end.

Definition getInstance (context_ : option RRefContext)
  : failure + RRefContext :=
  match context_ with
  | None => inl (TorchCheck "Have to initialize RRefContext before use.")
  | Some c => inr c
  end.

(** The one-argument overload of [createUserRRef], which mints both ids.
    C++ leaves the order in which the two [genGloballyUniqueId()] arguments
    are evaluated to the compiler; [rrefIdFirst] is that choice. *)
Definition createUserRRef_fresh (T : payload) (ownerId : worker_id_t)
  (rrefIdFirst : bool) : M shared_ptr :=
  let! self := getWorkerId in
  TORCH_CHECK (bool_decide (ownerId ≠ self))
    "Cannot create UserRRef on owner." ;;!
  let! a := genGloballyUniqueId in
  let! b := genGloballyUniqueId in
  if rrefIdFirst
  then createUserRRef T ownerId a b
  else createUserRRef T ownerId b a.

(** A call of a member function, or the run of a callback on a reply. *)
Inductive call : Type :=
| CallGenGloballyUniqueId
| CallCreateUserRRefFresh (T : payload) (ownerId : worker_id_t)
    (rrefIdFirst : bool)
| CallCreateUserRRef (T : payload) (ownerId : worker_id_t) (rid : RRefId)
    (fid : ForkId)
| CallGetOrCreateRRef (T : payload) (ownerId : worker_id_t) (rid : RRefId)
    (fid : ForkId)
| CallGetOrCreateOwnerRRef (T : payload) (rid : RRefId)
| CallForkTo (t : thread_id) (rref : shared_ptr) (forkDst : worker_id_t)
| CallAcceptUserRRef (rid : RRefId) (fid : ForkId)
| CallAcceptForkRequest (rid : RRefId) (fid : ForkId) (forkDst : worker_id_t)
| CallFinishForkRequest (fid : ForkId)
| CallFinishUserRRef (rid : RRefId) (fid : ForkId)
| CallAddForkOfOwner (rid : RRefId) (fid : ForkId)
| CallDelForkOfOwner (rid : RRefId) (fid : ForkId)
| CallAddRRefArgs (t : thread_id) (messageId : Z)
| CallDelRRefArgs (messageId : Z)
| CallRunCallback (cb : Callback) (message : Message).

(** The context a call leaves behind, whether it returns or throws. *)
Definition after (k : call) (c : RRefContext) : RRefContext :=
  match k with
  | CallGenGloballyUniqueId => final (genGloballyUniqueId c)
  | CallCreateUserRRefFresh T o b => final (createUserRRef_fresh T o b c)
  | CallCreateUserRRef T o rid fid => final (createUserRRef T o rid fid c)
  | CallGetOrCreateRRef T o rid fid => final (getOrCreateRRef T o rid fid c)
  | CallGetOrCreateOwnerRRef T rid => final (getOrCreateOwnerRRef T rid c)
  | CallForkTo t rref dst => final (forkTo t rref dst c)
  | CallAcceptUserRRef rid fid => final (acceptUserRRef rid fid c)
  | CallAcceptForkRequest rid fid dst =>
      final (acceptForkRequest rid fid dst c)
  | CallFinishForkRequest fid => final (finishForkRequest fid c)
  | CallFinishUserRRef rid fid => final (finishUserRRef rid fid c)
  | CallAddForkOfOwner rid fid => final (addForkOfOwner rid fid c)
  | CallDelForkOfOwner rid fid => final (delForkOfOwner rid fid c)
  | CallAddRRefArgs t m => final (addRRefArgs t m c)
  | CallDelRRefArgs m => final (delRRefArgs m c)
  | CallRunCallback cb message => final (runCallback cb message c)
  end.

(** A history of calls, oldest first. *)
Definition after_all (ks : list call) (c : RRefContext) : RRefContext :=
  foldl (λ c k, after k c) c ks.

(** No reference id is mapped to an empty set of forks. *)
Definition no_empty_forks (c : RRefContext) : Prop :=
  ∀ rid (S : gset ForkId), forks_ c !! rid = Some S → S ≠ ∅.

(** Every message handed to [send] has one callback on its future, added in
    sending order. *)
Definition callbacks_paired (c : RRefContext) : Prop :=
  (callbacks_ (agent_ c)).*1 = seq 0 (length (sent_ (agent_ c))).

(** The counter holds a 64-bit unsigned value. *)
Definition counter_in_range (c : RRefContext) : Prop :=
  0 ≤ nextLocalId_ c < local_id_modulus.

(** The elementary writes the member functions make, and their
    compositions.  A send comes with the callback on its future; the
    teardown of [delForkOfOwner] writes the shrunk set, erases the owner
    and erases the set as one write, as it does under one lock. *)
Inductive updates : RRefContext → RRefContext → Prop :=
| up_none c : updates c c
| up_then c1 c2 c3 : updates c1 c2 → updates c2 c3 → updates c1 c3
| up_counter c :
    updates c (set_nextLocalId (λ n, (n + 1) mod local_id_modulus) c)
| up_alloc c : updates c (set_nextAddr S c)
| up_rrefArgs f c : updates c (set_rrefArgs f c)
| up_pendingRRefArgs f c : updates c (set_pendingRRefArgs f c)
| up_owners f c : updates c (set_owners f c)
| up_pendingForkRequests f c : updates c (set_pendingForkRequests f c)
| up_fork_add rid fid c :
    updates c
      (set_forks (λ m, <[rid := default ∅ (m !! rid) ∪ {[fid]}]> m) c)
| up_fork_shrink rid (S : gset ForkId) c :
    S ≠ ∅ → updates c (set_forks (λ m, <[rid := S]> m) c)
| up_fork_teardown rid (S : gset ForkId) c :
    updates c
      (set_forks (λ m, delete rid m)
         (set_owners (λ m, delete rid m)
            (set_forks (λ m, <[rid := S]> m) c)))
| up_send dst message cb c :
    updates c
      (set_agent
         (λ a, mkRpcAgent (workerInfo_ a) (sent_ a ++ [(dst, message)])
                 (callbacks_ a ++ [(length (sent_ a), cb)])) c)
| up_user_pending fid u c :
    (fid ∉ pendingAcceptedUsers_ c) →
    updates c (set_pendingUsers (λ m, <[fid := u]> m) c)
| up_user_accepted fid c :
    updates c (set_pendingUsers (λ m, delete fid m) c)
| up_accept_consumed fid c :
    updates c (set_pendingAcceptedUsers (λ s, s ∖ {[fid]}) c)
| up_accept_early fid c :
    pendingUsers_ c !! fid = None →
    updates c (set_pendingAcceptedUsers (λ s, s ∪ {[fid]}) c).

(** ** Concrete contexts of the owner side *)

Module Cluster.

Definition worker0 : WorkerInfo := mkWorkerInfo "worker0" 0.
Definition worker1 : WorkerInfo := mkWorkerInfo "worker1" 1.

Definition rref_0_1 : RRefId := mkGloballyUniqueId 0 1.
Definition fork_1_2 : ForkId := mkGloballyUniqueId 1 2.

(** Worker 0 after creating the owner of [(0,1)]. *)
Definition owner_created : RRefContext :=
  final (getOrCreateOwnerRRef IValue rref_0_1 (initial worker0)).

Definition the_owner : shared_ptr :=
  mkPtr 0 (OwnerRRef IValue 0 rref_0_1).

(** Worker 0 after registering the fork [(1,2)] of [(0,1)]. *)
Definition fork_registered : RRefContext :=
  final (addForkOfOwner rref_0_1 fork_1_2 owner_created).

(** Worker 1 holding a user of [(0,1)], created and accepted. *)
Definition the_user : shared_ptr :=
  mkPtr 0 (UserRRef IValue 0 rref_0_1 fork_1_2).

Definition user_live : RRefContext :=
  final (finishUserRRef rref_0_1 fork_1_2
           (final (createUserRRef IValue 0 rref_0_1 fork_1_2
                     (initial worker1)))).

(** A history on worker 1: create the user, fork it to worker 2, take a
    failing reply, the accept, a duplicate accept, dispatch and release. *)
Definition worker1_history : list call :=
  [ CallCreateUserRRef IValue 0 rref_0_1 fork_1_2;
    CallForkTo 0%nat the_user 2;
    CallRunCallback OnForkAcceptFinishForkRequest (EXCEPTION "lost");
    CallFinishUserRRef rref_0_1 fork_1_2;
    CallFinishUserRRef rref_0_1 fork_1_2;
    CallAddRRefArgs 0%nat 42;
    CallDelRRefArgs 42;
    CallCreateUserRRefFresh PyObject 0 false ].

(** A history on worker 0: mint two ids, create the owner, fork it to
    workers 1 and 2, accept a fork request for worker 3, take the acks. *)
Definition worker0_history : list call :=
  [ CallGenGloballyUniqueId;
    CallGenGloballyUniqueId;
    CallGetOrCreateOwnerRRef IValue rref_0_1;
    CallForkTo 0%nat the_owner 1;
    CallForkTo 1%nat the_owner 2;
    CallAcceptForkRequest rref_0_1 fork_1_2 3;
    CallRunCallback (OnAckDelForkOfOwner rref_0_1 fork_1_2)
      (RREF_USER_DELETE rref_0_1 fork_1_2);
    CallDelForkOfOwner rref_0_1 rref_0_1;
    CallGenGloballyUniqueId ].

End Cluster.

(** ** Proof support *)

Ltac unfold_monad :=
  cbv beta iota delta
    [bind ret gets modify throw TORCH_CHECK TORCH_INTERNAL_ASSERT
     getWorkerId new].

(** ** delForkOfOwner *)

(** What the function does on a registered fork: the element erased from the
    set is the [rrefId] argument. *)
Lemma delForkOfOwner_registered rid fid c (S : gset ForkId) :
  forks_ c !! rid = Some S → fid ∈ S →
  delForkOfOwner rid fid c =
    Ok tt (if decide (S ∖ {[rid]} = ∅)
           then set_forks (λ m, delete rid m)
                  (set_owners (λ m, delete rid m)
                     (set_forks (λ m, <[rid := S ∖ {[rid]}]> m) c))
           else set_forks (λ m, <[rid := S ∖ {[rid]}]> m) c).
Proof.
  intros HS Hin. unfold delForkOfOwner. unfold_monad. rewrite HS.
  rewrite bool_decide_eq_true_2 by done. by case_decide.
Qed.

(** X4: a registered fork id other than the reference id survives
    [delForkOfOwner(rref_id, fork_id)]: the call returns normally, the
    element erased from the set is [rref_id], so [fork_id] is still in
    [forks_[rref_id]] and [owners_] is unchanged. *)
Lemma delForkOfOwner_other_fork_stays rid fid c (S : gset ForkId) :
  forks_ c !! rid = Some S → fid ∈ S → fid ≠ rid →
  ∃ c', delForkOfOwner rid fid c = Ok tt c' ∧
        ∃ S' : gset ForkId, forks_ c' !! rid = Some S' ∧ fid ∈ S' ∧
        owners_ c' = owners_ c.
Proof.
  intros HS Hin Hne. rewrite (delForkOfOwner_registered _ _ _ S) by done.
  eexists. split; [done|]. case_decide as He.
  - exfalso. assert (fid ∈ S ∖ {[rid]}) as Hin' by set_solver.
    rewrite He in Hin'. set_solver.
  - exists (S ∖ {[rid]}). simpl. rewrite lookup_insert_eq.
    split; [done|]. split; [set_solver|done].
Qed.

(** When the fork id is the reference id itself and is the last element, the
    teardown happens: both entries go in the one call. *)
Lemma delForkOfOwner_self_fork_teardown rid c :
  forks_ c !! rid = Some {[rid]} →
  ∃ c', delForkOfOwner rid rid c = Ok tt c' ∧
        forks_ c' !! rid = None ∧ owners_ c' !! rid = None.
Proof.
  intros HS. rewrite (delForkOfOwner_registered _ _ _ {[rid]}) by set_solver.
  eexists. split; [done|].
  assert (({[rid]} : gset ForkId) ∖ {[rid]} = ∅) as He.
  { apply set_eq. intros x. rewrite elem_of_difference, elem_of_singleton.
    rewrite elem_of_empty. tauto. }
  rewrite decide_True by exact He.
  simpl. by rewrite !lookup_delete_eq.
Qed.

(** C1 (the code departs from it): the owner of [(0,1)] holds the single
    fork [(1,2)]; [delForkOfOwner((0,1),(1,2))] returns normally and changes
    nothing, so [(1,2)] is still in [forks_[(0,1)]] and neither the [forks_]
    entry nor the [owners_] entry is dropped. *)
Theorem delForkOfOwner_last_fork_not_removed :
  forks_ Scenario.owner_with_one_fork !! Scenario.rref_0_1
    = Some {[Scenario.fork_1_2]} ∧
  is_Some (owners_ Scenario.owner_with_one_fork !! Scenario.rref_0_1) ∧
  delForkOfOwner Scenario.rref_0_1 Scenario.fork_1_2
      Scenario.owner_with_one_fork
    = Ok tt Scenario.owner_with_one_fork.
Proof.
  split; [by vm_compute|]. split; [by eexists; vm_compute|]. by vm_compute.
Qed.

(** ** createUserRRef *)

Lemma createUserRRef_on_owner T ownerId rid fid c :
  ownerId = id_ (workerInfo_ (agent_ c)) →
  createUserRRef T ownerId rid fid c
    = Throw (TorchCheck "RRef owner cannot create user RRef.") c.
Proof.
  intros ->. unfold createUserRRef. unfold_monad.
  by rewrite bool_decide_eq_false_2 by (intros H; by apply H).
Qed.

Lemma createUserRRef_twice T ownerId rid fid c :
  ownerId ≠ id_ (workerInfo_ (agent_ c)) →
  is_Some (pendingUsers_ c !! fid) →
  createUserRRef T ownerId rid fid c
    = Throw (TorchCheck
               "Inconsistent state, attempt to create the same UserRRef twice.")
        (set_nextAddr S c).
Proof.
  intros Hne [u Hu]. unfold createUserRRef. unfold_monad.
  rewrite bool_decide_eq_true_2 by done. simpl.
  rewrite bool_decide_eq_false_2; [done|]. by rewrite Hu.
Qed.

Lemma createUserRRef_before_accept T ownerId rid fid c :
  ownerId ≠ id_ (workerInfo_ (agent_ c)) →
  pendingUsers_ c !! fid = None →
  fid ∉ pendingAcceptedUsers_ c →
  let u := mkPtr (nextAddr_ c) (UserRRef T ownerId rid fid) in
  createUserRRef T ownerId rid fid c
    = Ok u (set_pendingUsers (λ m, <[fid := u]> m) (set_nextAddr S c)).
Proof.
  intros Hne Hu Hpau. unfold createUserRRef. unfold_monad.
  rewrite bool_decide_eq_true_2 by done. simpl.
  rewrite bool_decide_eq_true_2 by done.
  by rewrite decide_False by done.
Qed.

Lemma createUserRRef_after_accept T ownerId rid fid c :
  ownerId ≠ id_ (workerInfo_ (agent_ c)) →
  pendingUsers_ c !! fid = None →
  fid ∈ pendingAcceptedUsers_ c →
  let u := mkPtr (nextAddr_ c) (UserRRef T ownerId rid fid) in
  createUserRRef T ownerId rid fid c
    = Ok u (set_pendingAcceptedUsers (λ s, s ∖ {[fid]}) (set_nextAddr S c)).
Proof.
  intros Hne Hu Hpau. unfold createUserRRef. unfold_monad.
  rewrite bool_decide_eq_true_2 by done. simpl.
  rewrite bool_decide_eq_true_2 by done.
  by rewrite decide_True by done.
Qed.

(** C2: [createUserRRef(owner, rref_id, fork_id)] fails when [owner] is the
    local worker and fails when [fork_id] is already a key of
    [pendingUsers_]; otherwise it returns a newly constructed User of
    [owner] with the given ids, and afterwards either [fork_id] was not in
    [pendingAcceptedUsers_] and is now a key of [pendingUsers_] (mapped to
    the returned User), or [fork_id] was in [pendingAcceptedUsers_] and has
    been removed from it. *)
Theorem createUserRRef_spec T ownerId rid fid c :
  (ownerId = id_ (workerInfo_ (agent_ c)) →
     fails (createUserRRef T ownerId rid fid c)) ∧
  (is_Some (pendingUsers_ c !! fid) →
     fails (createUserRRef T ownerId rid fid c)) ∧
  (ownerId ≠ id_ (workerInfo_ (agent_ c)) →
   pendingUsers_ c !! fid = None →
     ∃ u c',
       createUserRRef T ownerId rid fid c = Ok u c' ∧
       pointee u = UserRRef T ownerId rid fid ∧
       addr u = nextAddr_ c ∧
       (((fid ∉ pendingAcceptedUsers_ c) ∧
         pendingUsers_ c' !! fid = Some u ∧
         pendingAcceptedUsers_ c' = pendingAcceptedUsers_ c)
        ∨
        (fid ∈ pendingAcceptedUsers_ c ∧
         (fid ∉ pendingAcceptedUsers_ c') ∧
         pendingAcceptedUsers_ c' = pendingAcceptedUsers_ c ∖ {[fid]} ∧
         pendingUsers_ c' = pendingUsers_ c))).
Proof.
  split; [|split].
  - intros Ho. by rewrite createUserRRef_on_owner.
  - intros Hu.
    destruct (decide (ownerId = id_ (workerInfo_ (agent_ c)))) as [Ho|Ho].
    + by rewrite createUserRRef_on_owner.
    + by rewrite createUserRRef_twice.
  - intros Ho Hu.
    destruct (decide (fid ∈ pendingAcceptedUsers_ c)) as [Hin|Hin].
    + eexists _, _. split; [by apply createUserRRef_after_accept|].
      simpl. split; [done|]. split; [done|]. right.
      split; [done|]. split; [|done].
      rewrite elem_of_difference, elem_of_singleton. tauto.
    + eexists _, _. split; [by apply createUserRRef_before_accept|].
      simpl. split; [done|]. split; [done|]. left.
      split; [done|]. by rewrite lookup_insert_eq.
Qed.

(** C2 at work: worker 1 creating a user of worker 0 on itself as owner
    fails, creating [(1,2)] a second time fails, and the first creation
    returns the User and leaves [(1,2)] pending. *)
Lemma createUserRRef_spec_witness :
  fails (createUserRRef IValue 1 Scenario.rref_0_1 Scenario.fork_1_2
           (initial Scenario.worker1)) ∧
  fails (createUserRRef IValue 0 Scenario.rref_0_1 Scenario.fork_1_2
           Scenario.user_created) ∧
  ∃ u c',
    createUserRRef IValue 0 Scenario.rref_0_1 Scenario.fork_1_2
      (initial Scenario.worker1) = Ok u c' ∧
    pointee u = UserRRef IValue 0 Scenario.rref_0_1 Scenario.fork_1_2 ∧
    pendingUsers_ c' !! Scenario.fork_1_2 = Some u.
Proof.
  split; [|split].
  - apply (proj1 (createUserRRef_spec IValue 1 Scenario.rref_0_1
                    Scenario.fork_1_2 (initial Scenario.worker1))).
    reflexivity.
  - apply (proj1 (proj2 (createUserRRef_spec IValue 0 Scenario.rref_0_1
                    Scenario.fork_1_2 Scenario.user_created))).
    eexists. vm_compute. reflexivity.
  - destruct (proj2 (proj2 (createUserRRef_spec IValue 0 Scenario.rref_0_1
                    Scenario.fork_1_2 (initial Scenario.worker1))))
      as (u & c' & Hrun & Hobj & _ & [(_ & Hpend & _)|(Hin & _)]).
    + vm_compute. discriminate.
    + reflexivity.
    + exists u, c'. auto.
    + exfalso. revert Hin. vm_compute. set_solver.
Defined.

(** ** finishUserRRef *)

Lemma finishUserRRef_already_accepted rid fid c :
  fid ∈ pendingAcceptedUsers_ c →
  finishUserRRef rid fid c
    = Throw (InternalAssert
               "Inconsistent state, attempt to accept the same UserRRef twice.")
        c.
Proof.
  intros Hin. unfold finishUserRRef. unfold_monad.
  rewrite bool_decide_eq_false_2; [done|]. intros Hn. by apply Hn.
Qed.

Lemma finishUserRRef_pending rid fid c u :
  (fid ∉ pendingAcceptedUsers_ c) →
  pendingUsers_ c !! fid = Some u →
  rrefId (pointee u) = rid →
  finishUserRRef rid fid c = Ok tt (set_pendingUsers (λ m, delete fid m) c).
Proof.
  intros Hpau Hu Hrid. unfold finishUserRRef. unfold_monad.
  rewrite bool_decide_eq_true_2 by done. rewrite Hu.
  by rewrite bool_decide_eq_true_2 by done.
Qed.

Lemma finishUserRRef_wrong_rrefId rid fid c u :
  (fid ∉ pendingAcceptedUsers_ c) →
  pendingUsers_ c !! fid = Some u →
  rrefId (pointee u) ≠ rid →
  finishUserRRef rid fid c
    = Throw (InternalAssert "Attempt to accept a fork with incorrect RRefId.")
        c.
Proof.
  intros Hpau Hu Hrid. unfold finishUserRRef. unfold_monad.
  rewrite bool_decide_eq_true_2 by done. rewrite Hu.
  by rewrite bool_decide_eq_false_2 by done.
Qed.

Lemma finishUserRRef_not_created rid fid c :
  (fid ∉ pendingAcceptedUsers_ c) →
  pendingUsers_ c !! fid = None →
  finishUserRRef rid fid c
    = Ok tt (set_pendingAcceptedUsers (λ s, s ∪ {[fid]}) c).
Proof.
  intros Hpau Hu. unfold finishUserRRef. unfold_monad.
  rewrite bool_decide_eq_true_2 by done. by rewrite Hu.
Qed.

(** C3 as stated fails: on worker 1, after the user [(rref=(0,1),
    fork=(1,2))] has been created, a first [finishUserRRef((0,1),(1,2))]
    removes the pending entry and a second one, with no [createUserRRef] in
    between, also returns normally; it records [(1,2)] in
    [pendingAcceptedUsers_]. *)
Lemma finishUserRRef_second_accept_after_create_succeeds :
  finishUserRRef Scenario.rref_0_1 Scenario.fork_1_2 Scenario.user_created
    = Ok tt Scenario.user_accepted ∧
  finishUserRRef Scenario.rref_0_1 Scenario.fork_1_2 Scenario.user_accepted
    = Ok tt Scenario.user_accepted_twice ∧
  ¬ fails (finishUserRRef Scenario.rref_0_1 Scenario.fork_1_2
             Scenario.user_accepted) ∧
  Scenario.fork_1_2 ∈ pendingAcceptedUsers_ Scenario.user_accepted_twice.
Proof.
  split; [by vm_compute|]. split; [by vm_compute|].
  split; [by vm_compute|]. compute_done.
Qed.

(** C3, amended: [finishUserRRef(rref_id, fork_id)] fails, changing nothing,
    when [fork_id] is already in [pendingAcceptedUsers_]; otherwise it
    removes the [fork_id] entry of [pendingUsers_] when there is one and its
    User carries [rref_id], and inserts [fork_id] into
    [pendingAcceptedUsers_] when there is none.  A second call with the same
    [fork_id] right after a successful first one fails when the first call
    found no [pendingUsers_] entry, and succeeds, inserting [fork_id] into
    [pendingAcceptedUsers_], when the first call removed one. *)
Theorem finishUserRRef_spec rid fid c :
  (fid ∈ pendingAcceptedUsers_ c →
     fails (finishUserRRef rid fid c) ∧
     final (finishUserRRef rid fid c) = c) ∧
  (∀ u, (fid ∉ pendingAcceptedUsers_ c) →
     pendingUsers_ c !! fid = Some u → rrefId (pointee u) = rid →
     ∃ c1, finishUserRRef rid fid c = Ok tt c1 ∧
           pendingUsers_ c1 = delete fid (pendingUsers_ c) ∧
           pendingUsers_ c1 !! fid = None ∧
           pendingAcceptedUsers_ c1 = pendingAcceptedUsers_ c ∧
           ∀ rid', ∃ c2, finishUserRRef rid' fid c1 = Ok tt c2 ∧
                         fid ∈ pendingAcceptedUsers_ c2) ∧
  ((fid ∉ pendingAcceptedUsers_ c) →
     pendingUsers_ c !! fid = None →
     ∃ c1, finishUserRRef rid fid c = Ok tt c1 ∧
           pendingAcceptedUsers_ c1 = pendingAcceptedUsers_ c ∪ {[fid]} ∧
           pendingUsers_ c1 = pendingUsers_ c ∧
           ∀ rid', fails (finishUserRRef rid' fid c1)).
Proof.
  split; [|split].
  - intros Hin. by rewrite finishUserRRef_already_accepted.
  - intros u Hpau Hu Hrid.
    eexists. split; [by eapply finishUserRRef_pending|]. simpl.
    split; [done|]. split; [apply lookup_delete_eq|]. split; [done|].
    intros rid'. eexists. split.
    + apply finishUserRRef_not_created; simpl; [done|apply lookup_delete_eq].
    + simpl. apply elem_of_union_r. by apply elem_of_singleton.
  - intros Hpau Hu.
    eexists. split; [by apply finishUserRRef_not_created|]. simpl.
    split; [done|]. split; [done|]. intros rid'.
    rewrite finishUserRRef_already_accepted; [done|]. simpl.
    apply elem_of_union_r. by apply elem_of_singleton.
Qed.

(** The amended C3 on the two scenarios of worker 1: the accept that arrives
    first is recorded and its duplicate fails; the accept that finds the
    pending user removes it. *)
Lemma finishUserRRef_spec_witness :
  (fails (finishUserRRef Scenario.rref_0_1 Scenario.fork_1_2
            Scenario.accept_arrived_first)) ∧
  (∃ c1, finishUserRRef Scenario.rref_0_1 Scenario.fork_1_2
           Scenario.user_created = Ok tt c1 ∧
         pendingUsers_ c1 !! Scenario.fork_1_2 = None) ∧
  (∃ c1, finishUserRRef Scenario.rref_0_1 Scenario.fork_1_2
           (initial Scenario.worker1) = Ok tt c1 ∧
         ∀ rid', fails (finishUserRRef rid' Scenario.fork_1_2 c1)).
Proof.
  split; [|split].
  - apply (proj1 (finishUserRRef_spec Scenario.rref_0_1 Scenario.fork_1_2
                    Scenario.accept_arrived_first)).
    compute_done.
  - destruct (proj1 (proj2 (finishUserRRef_spec Scenario.rref_0_1
                    Scenario.fork_1_2 Scenario.user_created))
                (mkPtr 0 (UserRRef IValue 0 Scenario.rref_0_1
                            Scenario.fork_1_2)))
      as (c1 & Hrun & _ & Hgone & _).
    + compute_done.
    + by vm_compute.
    + reflexivity.
    + exists c1. auto.
  - destruct (proj2 (proj2 (finishUserRRef_spec Scenario.rref_0_1
                    Scenario.fork_1_2 (initial Scenario.worker1))))
      as (c1 & Hrun & _ & _ & Hdup).
    + compute_done.
    + by vm_compute.
    + exists c1. auto.
Defined.

(** C9: when [pendingUsers_[fork_id]] holds a User whose [rref_id] is not
    the [rref_id] argument, [finishUserRRef(rref_id, fork_id)] fails and the
    entry stays; unless the fork was already accepted, the failure is the
    assertion on the [rref_id]. *)
Theorem finishUserRRef_rrefId_mismatch rid fid c u :
  pendingUsers_ c !! fid = Some u →
  rrefId (pointee u) ≠ rid →
  fails (finishUserRRef rid fid c) ∧
  final (finishUserRRef rid fid c) = c ∧
  ((fid ∉ pendingAcceptedUsers_ c) →
   finishUserRRef rid fid c
     = Throw (InternalAssert "Attempt to accept a fork with incorrect RRefId.")
         c).
Proof.
  intros Hu Hrid.
  destruct (decide (fid ∈ pendingAcceptedUsers_ c)) as [Hin|Hin].
  - rewrite finishUserRRef_already_accepted by done. by repeat split.
  - rewrite (finishUserRRef_wrong_rrefId rid fid c u) by done.
    by repeat split.
Qed.

(** C9 at work: the pending user [(1,2)] of worker 1 belongs to [(0,1)];
    accepting it for [(0,5)] fails. *)
Lemma finishUserRRef_rrefId_mismatch_witness :
  fails (finishUserRRef (mkGloballyUniqueId 0 5) Scenario.fork_1_2
           Scenario.user_created) ∧
  final (finishUserRRef (mkGloballyUniqueId 0 5) Scenario.fork_1_2
           Scenario.user_created) = Scenario.user_created.
Proof.
  destruct (finishUserRRef_rrefId_mismatch (mkGloballyUniqueId 0 5)
              Scenario.fork_1_2 Scenario.user_created
              (mkPtr 0 (UserRRef IValue 0 Scenario.rref_0_1
                          Scenario.fork_1_2)))
    as (Hf & Hc & _).
  - by vm_compute.
  - simpl. discriminate.
  - auto.
Defined.

(** ** The two pending tables never share a fork id *)

Lemma pending_disjoint_initial self : pending_disjoint (initial self).
Proof. intros fid [[u Hu] _]. simpl in Hu. by rewrite lookup_empty in Hu. Qed.

Lemma createUserRRef_Ok_inv T ownerId rid fid c u c' :
  createUserRRef T ownerId rid fid c = Ok u c' →
  pendingUsers_ c !! fid = None ∧
  ((fid ∈ pendingAcceptedUsers_ c ∧
    pendingUsers_ c' = pendingUsers_ c ∧
    pendingAcceptedUsers_ c' = pendingAcceptedUsers_ c ∖ {[fid]})
   ∨
   ((fid ∉ pendingAcceptedUsers_ c) ∧
    pendingUsers_ c' = <[fid := u]> (pendingUsers_ c) ∧
    pendingAcceptedUsers_ c' = pendingAcceptedUsers_ c)).
Proof.
  intros Hrun.
  destruct (decide (ownerId = id_ (workerInfo_ (agent_ c)))) as [Ho|Ho].
  { by rewrite createUserRRef_on_owner in Hrun. }
  destruct (pendingUsers_ c !! fid) as [v|] eqn:Hv.
  { assert (is_Some (pendingUsers_ c !! fid)) as Hs by (by exists v).
    by rewrite createUserRRef_twice in Hrun. }
  split; [done|].
  destruct (decide (fid ∈ pendingAcceptedUsers_ c)) as [Hin|Hin].
  - rewrite createUserRRef_after_accept in Hrun by done.
    inversion Hrun; subst. by left.
  - rewrite createUserRRef_before_accept in Hrun by done.
    inversion Hrun; subst. by right.
Qed.

Lemma finishUserRRef_Ok_inv rid fid c c' :
  finishUserRRef rid fid c = Ok tt c' →
  (fid ∉ pendingAcceptedUsers_ c) ∧
  ((is_Some (pendingUsers_ c !! fid) ∧
    pendingUsers_ c' = delete fid (pendingUsers_ c) ∧
    pendingAcceptedUsers_ c' = pendingAcceptedUsers_ c)
   ∨
   (pendingUsers_ c !! fid = None ∧
    pendingUsers_ c' = pendingUsers_ c ∧
    pendingAcceptedUsers_ c' = pendingAcceptedUsers_ c ∪ {[fid]})).
Proof.
  intros Hrun.
  destruct (decide (fid ∈ pendingAcceptedUsers_ c)) as [Hin|Hin].
  { by rewrite finishUserRRef_already_accepted in Hrun. }
  split; [done|].
  destruct (pendingUsers_ c !! fid) as [u|] eqn:Hu.
  - destruct (decide (rrefId (pointee u) = rid)) as [Hr|Hr].
    + rewrite (finishUserRRef_pending rid fid c u) in Hrun by done.
      inversion Hrun; subst. left. eauto.
    + by rewrite (finishUserRRef_wrong_rrefId rid fid c u) in Hrun.
  - rewrite finishUserRRef_not_created in Hrun by done.
    inversion Hrun; subst. by right.
Qed.

Lemma createUserRRef_preserves_disjoint T ownerId rid fid c u c' :
  pending_disjoint c →
  createUserRRef T ownerId rid fid c = Ok u c' →
  pending_disjoint c'.
Proof.
  intros Hinv Hrun g [Hg Hacc].
  destruct (createUserRRef_Ok_inv _ _ _ _ _ _ _ Hrun)
    as [Hnone [(Hin & Hpu & Hpau)|(Hnin & Hpu & Hpau)]].
  - rewrite Hpu in Hg. rewrite Hpau in Hacc.
    apply elem_of_difference in Hacc as [Hacc _]. by apply (Hinv g).
  - rewrite Hpu in Hg. rewrite Hpau in Hacc.
    destruct (decide (g = fid)) as [->|Hne]; [done|].
    rewrite lookup_insert_ne in Hg by done. by apply (Hinv g).
Qed.

Lemma finishUserRRef_preserves_disjoint rid fid c c' :
  pending_disjoint c →
  finishUserRRef rid fid c = Ok tt c' →
  pending_disjoint c'.
Proof.
  intros Hinv Hrun g [Hg Hacc].
  destruct (finishUserRRef_Ok_inv _ _ _ _ Hrun)
    as [Hnin [(Hsome & Hpu & Hpau)|(Hnone & Hpu & Hpau)]].
  - rewrite Hpu in Hg. rewrite Hpau in Hacc.
    destruct (decide (g = fid)) as [->|Hne].
    + rewrite lookup_delete_eq in Hg. by destruct Hg.
    + rewrite lookup_delete_ne in Hg by done. by apply (Hinv g).
  - rewrite Hpu in Hg. rewrite Hpau in Hacc.
    apply elem_of_union in Hacc as [Hacc|Hacc].
    + by apply (Hinv g).
    + apply elem_of_singleton in Hacc as ->. rewrite Hnone in Hg.
      by destruct Hg.
Qed.

(** C4: in every context reached from the initial one by successful
    [createUserRRef] and [finishUserRRef] calls, in any order, no fork id is
    at once a key of [pendingUsers_] and a member of
    [pendingAcceptedUsers_]. *)
Theorem pending_tables_never_share_a_fork self c fid :
  reachable self c →
  ¬ (is_Some (pendingUsers_ c !! fid) ∧ fid ∈ pendingAcceptedUsers_ c).
Proof.
  intros Hreach. revert fid. change (pending_disjoint c).
  induction Hreach as [|T ownerId rid fid c u c' _ IH Hrun
                        |rid fid c c' _ IH Hrun].
  - apply pending_disjoint_initial.
  - by eapply createUserRRef_preserves_disjoint.
  - by eapply finishUserRRef_preserves_disjoint.
Qed.

(** C4 at work on worker 1 after create, accept and a second accept of
    [(1,2)]. *)
Lemma pending_tables_never_share_a_fork_witness :
  reachable Scenario.worker1 Scenario.user_accepted_twice ∧
  ¬ (is_Some (pendingUsers_ Scenario.user_accepted_twice !! Scenario.fork_1_2)
     ∧ Scenario.fork_1_2 ∈ pendingAcceptedUsers_ Scenario.user_accepted_twice).
Proof.
  assert (reachable Scenario.worker1 Scenario.user_accepted_twice) as Hr.
  { apply (reach_finishUserRRef _ Scenario.rref_0_1 Scenario.fork_1_2
             Scenario.user_accepted); [|by vm_compute].
    apply (reach_finishUserRRef _ Scenario.rref_0_1 Scenario.fork_1_2
             Scenario.user_created); [|by vm_compute].
    apply (reach_createUserRRef _ IValue 0 Scenario.rref_0_1
             Scenario.fork_1_2 (initial Scenario.worker1)
             (mkPtr 0 (UserRRef IValue 0 Scenario.rref_0_1
                         Scenario.fork_1_2)));
      [apply reach_initial|by vm_compute]. }
  split; [exact Hr|].
  exact (pending_tables_never_share_a_fork Scenario.worker1
           Scenario.user_accepted_twice Scenario.fork_1_2 Hr).
Defined.

(** ** getOrCreateOwnerRRef *)

Lemma getOrCreateOwnerRRef_absent T rid c :
  owners_ c !! rid = None →
  let p := mkPtr (nextAddr_ c)
             (OwnerRRef T (id_ (workerInfo_ (agent_ c))) rid) in
  getOrCreateOwnerRRef T rid c
    = Ok (Some p) (set_owners (λ m, <[rid := p]> m) (set_nextAddr S c)).
Proof.
  intros Hnone. unfold getOrCreateOwnerRRef. unfold_monad.
  by rewrite Hnone.
Qed.

Lemma getOrCreateOwnerRRef_present T rid c p :
  owners_ c !! rid = Some p →
  getOrCreateOwnerRRef T rid c = Ok (dynamic_pointer_cast_Owner T p) c.
Proof.
  intros Hp. unfold getOrCreateOwnerRRef. unfold_monad. by rewrite Hp.
Qed.

Lemma dynamic_pointer_cast_Owner_same T a w rid :
  dynamic_pointer_cast_Owner T (mkPtr a (OwnerRRef T w rid))
    = Some (mkPtr a (OwnerRRef T w rid)).
Proof.
  unfold dynamic_pointer_cast_Owner. simpl. by rewrite decide_True.
Qed.

(** A call that returns [a] and leaves the context as it found it does so
    however often it is repeated. *)
Lemma call_k_fixed {A} (m : M A) c a k :
  m c = Ok a c → call_k k m c = Ok (replicate k a) c.
Proof.
  intros Hm. induction k as [|k IH]; [done|].
  simpl. unfold bind at 1. rewrite Hm.
  unfold bind at 1. by rewrite IH.
Qed.

Lemma call_k_S {A} (m : M A) c a c1 l c2 k :
  m c = Ok a c1 → call_k k m c1 = Ok l c2 →
  call_k (S k) m c = Ok (a :: l) c2.
Proof.
  intros Hm Hk. simpl. unfold bind at 1. rewrite Hm.
  unfold bind at 1. by rewrite Hk.
Qed.

(** C5: [k >= 1] calls of [getOrCreateOwnerRRef(rref_id)] all return the
    same pointer and leave [owners_] as the first call left it, with one
    entry for [rref_id] (the pointer returned is the cast of that entry) and
    the entries of other ids untouched.  When [owners_] had no entry the
    first call constructs an Owner at a fresh address and inserts it, one
    entry more; every later call returns the existing one and modifies
    nothing; an entry that is already there is returned by the first call
    too, with the context unmodified. *)
Theorem getOrCreateOwnerRRef_idempotent T rid k c :
  (1 ≤ k)%nat →
  ∃ o c1,
    getOrCreateOwnerRRef T rid c = Ok o c1 ∧
    call_k k (getOrCreateOwnerRRef T rid) c = Ok (replicate k o) c1 ∧
    getOrCreateOwnerRRef T rid c1 = Ok o c1 ∧
    (∃ p, owners_ c1 !! rid = Some p ∧
          o = dynamic_pointer_cast_Owner T p) ∧
    (∀ j, j ≠ rid → owners_ c1 !! j = owners_ c !! j) ∧
    (owners_ c !! rid = None →
       ∃ p, o = Some p ∧
            addr p = nextAddr_ c ∧
            pointee p = OwnerRRef T (id_ (workerInfo_ (agent_ c))) rid ∧
            owners_ c1 = <[rid := p]> (owners_ c) ∧
            size (owners_ c1) = S (size (owners_ c))) ∧
    (is_Some (owners_ c !! rid) → c1 = c).
Proof.
  intros Hk. destruct k as [|k]; [lia|].
  destruct (owners_ c !! rid) as [p|] eqn:Hp.
  - pose proof (getOrCreateOwnerRRef_present T rid c p Hp) as Hrun.
    exists (dynamic_pointer_cast_Owner T p), c.
    split; [done|]. split; [by apply call_k_fixed|]. split; [done|].
    split; [by exists p|]. split; [done|]. split; [done|done].
  - pose proof (getOrCreateOwnerRRef_absent T rid c Hp) as Hrun.
    simpl in Hrun.
    set (p := mkPtr (nextAddr_ c)
                (OwnerRRef T (id_ (workerInfo_ (agent_ c))) rid)) in *.
    set (c1 := set_owners (λ m, <[rid := p]> m) (set_nextAddr S c)) in *.
    assert (owners_ c1 !! rid = Some p) as Hp1
      by (simpl; apply lookup_insert_eq).
    assert (getOrCreateOwnerRRef T rid c1 = Ok (Some p) c1) as Hagain.
    { rewrite (getOrCreateOwnerRRef_present T rid c1 p Hp1).
      unfold p. by rewrite dynamic_pointer_cast_Owner_same. }
    exists (Some p), c1.
    split; [done|]. split.
    { apply (call_k_S _ _ _ c1 _ c1); [done|by apply call_k_fixed]. }
    split; [done|]. split.
    { exists p. split; [done|]. unfold p.
      by rewrite dynamic_pointer_cast_Owner_same. }
    split.
    { intros j Hj. simpl. by rewrite lookup_insert_ne. }
    split.
    { intros _. exists p. split; [done|]. split; [done|]. split; [done|].
      split; [done|]. simpl. by apply map_size_insert_None. }
    intros [q Hq]. discriminate.
Qed.

(** C5 at work: three calls for [(0,1)] on the fresh context of worker 0
    return three times the Owner constructed at address 0. *)
Lemma getOrCreateOwnerRRef_idempotent_witness :
  ∃ c1,
    call_k 3 (getOrCreateOwnerRRef IValue Scenario.rref_0_1)
      (initial Scenario.worker0)
    = Ok (replicate 3
            (Some (mkPtr 0 (OwnerRRef IValue 0 Scenario.rref_0_1)))) c1 ∧
    size (owners_ c1) = 1%nat.
Proof.
  destruct (getOrCreateOwnerRRef_idempotent IValue Scenario.rref_0_1 3
              (initial Scenario.worker0))
    as (o & c1 & Hfirst & Hall & _ & _ & _ & Hnew & _); [lia|].
  destruct Hnew as (p & -> & Ha & Hobj & _ & Hsize); [by vm_compute|].
  exists c1. split; [|exact Hsize].
  rewrite Hall. destruct p as [a obj]. simpl in Ha, Hobj. by subst.
Defined.

(** ** The identifier allocator *)

Lemma genGloballyUniqueId_run c :
  genGloballyUniqueId c
    = Ok (mkGloballyUniqueId (id_ (workerInfo_ (agent_ c))) (nextLocalId_ c))
        (set_nextLocalId (λ n, (n + 1) mod local_id_modulus) c).
Proof. reflexivity. Qed.

(** The counter is a 64-bit word: the call made at its largest value takes
    it back to zero. *)
Lemma genGloballyUniqueId_wraps c :
  nextLocalId_ c = local_id_modulus - 1 →
  nextLocalId_ (final (genGloballyUniqueId c)) = 0.
Proof.
  intros Hn. rewrite genGloballyUniqueId_run. simpl. rewrite Hn.
  by vm_compute.
Qed.

Lemma call_k_genGloballyUniqueId k : ∀ c,
  0 ≤ nextLocalId_ c →
  nextLocalId_ c + Z.of_nat k ≤ local_id_modulus →
  ∃ c',
    call_k k genGloballyUniqueId c
      = Ok (map (λ i : nat, mkGloballyUniqueId (id_ (workerInfo_ (agent_ c)))
                              (nextLocalId_ c + Z.of_nat i))
              (seq 0 k)) c' ∧
    agent_ c' = agent_ c.
Proof.
  induction k as [|k IH]; intros c Hlo Hhi.
  - by exists c.
  - set (c1 := set_nextLocalId (λ n, (n + 1) mod local_id_modulus) c).
    destruct k as [|k'].
    + exists c1. split; [|done]. simpl. unfold bind at 1.
      rewrite genGloballyUniqueId_run. by rewrite Z.add_0_r.
    + assert (nextLocalId_ c1 = nextLocalId_ c + 1) as Hn1.
      { simpl. apply Z.mod_small. lia. }
      destruct (IH c1) as (c' & Hrun & Hagent); [lia|lia|].
      exists c'. split; [|done].
      rewrite (call_k_S _ c _ c1 _ c' _ (genGloballyUniqueId_run c) Hrun).
      f_equal. change (seq 0 (S (S k'))) with (0%nat :: seq 1 (S k')).
      rewrite <- seq_shift, map_cons, map_map, Z.add_0_r. f_equal.
      apply map_ext. intros i. rewrite Hn1. f_equal. lia.
Qed.

(** C8: successive calls of [genGloballyUniqueId] on a worker, as long as
    the 64-bit counter does not wrap within them, each return the local
    worker id paired with a local id, the local ids strictly increase in call
    order, and no identifier is returned twice. *)
Theorem genGloballyUniqueId_strictly_increasing k c :
  0 ≤ nextLocalId_ c →
  nextLocalId_ c + Z.of_nat k ≤ local_id_modulus →
  ∃ ids c',
    call_k k genGloballyUniqueId c = Ok ids c' ∧
    length ids = k ∧
    (∀ i x, ids !! i = Some x →
       worker_id x = id_ (workerInfo_ (agent_ c)) ∧
       local_id x = nextLocalId_ c + Z.of_nat i) ∧
    (∀ i j x y, (i < j)%nat → ids !! i = Some x → ids !! j = Some y →
       local_id x < local_id y) ∧
    NoDup ids.
Proof.
  intros Hlo Hhi.
  destruct (call_k_genGloballyUniqueId k c Hlo Hhi) as (c' & Hrun & _).
  eexists _, c'. split; [exact Hrun|].
  assert (∀ i x,
    map (λ i : nat, mkGloballyUniqueId (id_ (workerInfo_ (agent_ c)))
                      (nextLocalId_ c + Z.of_nat i)) (seq 0 k) !! i = Some x →
    x = mkGloballyUniqueId (id_ (workerInfo_ (agent_ c)))
          (nextLocalId_ c + Z.of_nat i)) as Hnth.
  { intros i x Hx. change (map ?f ?l) with (f <$> l) in Hx.
    rewrite list_lookup_fmap in Hx.
    destruct (seq 0 k !! i) as [n|] eqn:Hn; [|done].
    apply lookup_seq in Hn as [-> _]. simpl in Hx. by inversion Hx. }
  split; [by rewrite length_map, length_seq|].
  split; [intros i x Hx; by rewrite (Hnth i x Hx)|].
  split.
  - intros i j x y Hij Hx Hy.
    rewrite (Hnth i x Hx), (Hnth j y Hy). simpl. lia.
  - apply NoDup_alt. intros i j x Hx Hy.
    pose proof (Hnth i x Hx) as Hi. pose proof (Hnth j x Hy) as Hj.
    rewrite Hi in Hj. inversion Hj. lia.
Qed.

(** C8 at work: the first three identifiers of worker 1. *)
Lemma genGloballyUniqueId_strictly_increasing_witness :
  ∃ ids c',
    call_k 3 genGloballyUniqueId (initial Scenario.worker1) = Ok ids c' ∧
    length ids = 3%nat ∧ NoDup ids.
Proof.
  destruct (genGloballyUniqueId_strictly_increasing 3
              (initial Scenario.worker1))
    as (ids & c' & Hrun & Hlen & _ & _ & Hnodup).
  - simpl. lia.
  - vm_compute. discriminate.
  - exists ids, c'. auto.
Defined.

(** ** forkTo towards the owner *)

Lemma fork_run r c :
  fork r c
    = Ok (mkRRefForkData (rrefId r)
            (mkGloballyUniqueId (id_ (workerInfo_ (agent_ c)))
               (nextLocalId_ c))
            (id_ (workerInfo_ (agent_ c))))
        (set_nextLocalId (λ n, (n + 1) mod local_id_modulus) c).
Proof. reflexivity. Qed.

Lemma forkTo_to_owner t rref forkDst c :
  forkDst = owner (pointee rref) →
  forkTo t rref forkDst c
    = Ok (mkRRefForkData (rrefId (pointee rref))
            (mkGloballyUniqueId (id_ (workerInfo_ (agent_ c)))
               (nextLocalId_ c))
            (id_ (workerInfo_ (agent_ c))))
        (set_nextLocalId (λ n, (n + 1) mod local_id_modulus)
           (set_rrefArgs (λ m, <[t := default [] (m !! t) ++ [rref]]> m) c)).
Proof.
  intros ->. unfold forkTo. unfold bind at 1. unfold modify at 1.
  unfold bind at 1. rewrite fork_run. unfold bind at 1.
  rewrite decide_False by (intros Hne; by apply Hne). reflexivity.
Qed.

(** C6: when the destination is the owner of [rref], [forkTo(rref, dst)]
    returns the descriptor [rref->fork()] produces, has pushed [rref] at the
    end of the calling thread's [rrefArgs_], and has sent no message,
    registered no callback and left [owners_], [forks_], [pendingUsers_],
    [pendingForkRequests_] and [pendingAcceptedUsers_] (and
    [pendingRRefArgs_], and the other threads' [rrefArgs_]) as they were. *)
Theorem forkTo_owner_destination t rref forkDst c :
  forkDst = owner (pointee rref) →
  ∃ forkRequest c',
    forkTo t rref forkDst c = Ok forkRequest c' ∧
    result (fork (pointee rref) c) = Some forkRequest ∧
    rrefArgs_of t c' = rrefArgs_of t c ++ [rref] ∧
    sent_ (agent_ c') = sent_ (agent_ c) ∧
    callbacks_ (agent_ c') = callbacks_ (agent_ c) ∧
    owners_ c' = owners_ c ∧
    forks_ c' = forks_ c ∧
    pendingUsers_ c' = pendingUsers_ c ∧
    pendingForkRequests_ c' = pendingForkRequests_ c ∧
    pendingAcceptedUsers_ c' = pendingAcceptedUsers_ c ∧
    pendingRRefArgs_ c' = pendingRRefArgs_ c ∧
    (∀ t', t' ≠ t → rrefArgs_of t' c' = rrefArgs_of t' c).
Proof.
  intros Hdst. eexists _, _. split; [by apply forkTo_to_owner|].
  split; [by rewrite fork_run|].
  split.
  { unfold rrefArgs_of. simpl. by rewrite lookup_insert_eq. }
  repeat (split; [reflexivity|]).
  intros t' Hne. unfold rrefArgs_of. simpl. by rewrite lookup_insert_ne.
Qed.

(** C6 at work: worker 1 passes its user of [(0,1)] to worker 0, the
    owner. *)
Lemma forkTo_owner_destination_witness :
  ∃ forkRequest c',
    forkTo 0%nat (mkPtr 0 (UserRRef IValue 0 Scenario.rref_0_1
                             Scenario.fork_1_2)) 0 Scenario.user_created
      = Ok forkRequest c' ∧
    sent_ (agent_ c') = [] ∧
    rrefArgs_of 0%nat c'
      = [mkPtr 0 (UserRRef IValue 0 Scenario.rref_0_1 Scenario.fork_1_2)].
Proof.
  destruct (forkTo_owner_destination 0%nat
              (mkPtr 0 (UserRRef IValue 0 Scenario.rref_0_1
                          Scenario.fork_1_2)) 0 Scenario.user_created)
    as (fr & c' & Hrun & _ & Hargs & Hsent & _); [reflexivity|].
  exists fr, c'. split; [exact Hrun|]. split.
  - rewrite Hsent. reflexivity.
  - rewrite Hargs. reflexivity.
Defined.

(** In the two other cases a message does leave; the frame of C6 is
    specific to the owner as destination. *)
Example forkTo_third_party_sends :
  sent_ (agent_ (final (forkTo 0%nat
                          (mkPtr 0 (UserRRef IValue 0 Scenario.rref_0_1
                                      Scenario.fork_1_2))
                          2 Scenario.user_created)))
    = [(0, RREF_FORK_NOTIFY Scenario.rref_0_1 (mkGloballyUniqueId 1 0) 2)].
Proof. by vm_compute. Qed.

(** ** Pinning the arguments of a call *)

Lemma addRRefArgs_fresh t messageId c :
  pendingRRefArgs_ c !! messageId = None →
  addRRefArgs t messageId c
    = Ok tt (set_rrefArgs (λ m, <[t := []]> m)
               (set_pendingRRefArgs
                  (λ m, <[messageId := rrefArgs_of t c]> m) c)).
Proof.
  intros Hm. unfold addRRefArgs. unfold_monad.
  by rewrite bool_decide_eq_true_2 by done.
Qed.

Lemma addRRefArgs_taken t messageId c :
  is_Some (pendingRRefArgs_ c !! messageId) →
  addRRefArgs t messageId c
    = Throw (InternalAssert "Cannot set RRef args on the same message twice.")
        c.
Proof.
  intros [l Hl]. unfold addRRefArgs. unfold_monad.
  rewrite bool_decide_eq_false_2; [done|]. by rewrite Hl.
Qed.

Lemma delRRefArgs_present messageId c :
  is_Some (pendingRRefArgs_ c !! messageId) →
  delRRefArgs messageId c
    = Ok tt (set_pendingRRefArgs (λ m, delete messageId m) c).
Proof.
  intros Hm. unfold delRRefArgs. unfold_monad.
  by rewrite bool_decide_eq_true_2 by done.
Qed.

(** C7: for a message id with no entry yet, [addRRefArgs(m)] moves the whole
    of the calling thread's [rrefArgs_] into [pendingRRefArgs_[m]] and
    leaves that vector empty; for a message id with an entry,
    [delRRefArgs(m)] removes it.  Either way the entries of every other
    message id stay as they were. *)
Theorem rrefArgs_transfer_and_release t messageId c :
  (pendingRRefArgs_ c !! messageId = None →
     ∃ c', addRRefArgs t messageId c = Ok tt c' ∧
           pendingRRefArgs_ c' !! messageId = Some (rrefArgs_of t c) ∧
           rrefArgs_of t c' = [] ∧
           (∀ m', m' ≠ messageId →
              pendingRRefArgs_ c' !! m' = pendingRRefArgs_ c !! m') ∧
           (∀ t', t' ≠ t → rrefArgs_of t' c' = rrefArgs_of t' c)) ∧
  (is_Some (pendingRRefArgs_ c !! messageId) →
     ∃ c', delRRefArgs messageId c = Ok tt c' ∧
           pendingRRefArgs_ c' !! messageId = None ∧
           pendingRRefArgs_ c' = delete messageId (pendingRRefArgs_ c) ∧
           (∀ m', m' ≠ messageId →
              pendingRRefArgs_ c' !! m' = pendingRRefArgs_ c !! m') ∧
           rrefArgs_ c' = rrefArgs_ c).
Proof.
  split.
  - intros Hm. eexists. split; [by apply addRRefArgs_fresh|].
    unfold rrefArgs_of. simpl. rewrite !lookup_insert_eq.
    split; [done|]. split; [done|]. split.
    + intros m' Hne. by rewrite lookup_insert_ne.
    + intros t' Hne. by rewrite lookup_insert_ne.
  - intros Hm. eexists. split; [by apply delRRefArgs_present|]. simpl.
    split; [apply lookup_delete_eq|]. split; [done|]. split; [|done].
    intros m' Hne. by rewrite lookup_delete_ne.
Qed.

(** C7 at work: message 42 takes over the one pinned argument of thread 0,
    and its release empties the table again. *)
Lemma rrefArgs_transfer_and_release_witness :
  (∃ c', addRRefArgs 0%nat 42 Scenario.argument_prepared = Ok tt c' ∧
         pendingRRefArgs_ c' !! 42 = Some [Scenario.the_user] ∧
         rrefArgs_of 0%nat c' = []) ∧
  (∃ c', delRRefArgs 42 Scenario.argument_pinned = Ok tt c' ∧
         pendingRRefArgs_ c' !! 42 = None).
Proof.
  destruct (rrefArgs_transfer_and_release 0%nat 42
              Scenario.argument_prepared) as [Hadd _].
  destruct (rrefArgs_transfer_and_release 0%nat 42
              Scenario.argument_pinned) as [_ Hdel].
  split.
  - destruct Hadd as (c' & Hrun & Hmoved & Hempty & _); [by vm_compute|].
    exists c'. split; [exact Hrun|]. split; [|exact Hempty].
    rewrite Hmoved. by vm_compute.
  - destruct Hdel as (c' & Hrun & Hgone & _).
    + exists [Scenario.the_user]. by vm_compute.
    + exists c'. auto.
Defined.

(** C10: [addRRefArgs(m)] for a message id that already has an entry fails
    on its assertion and changes nothing; in particular a second
    [addRRefArgs(m)] after a successful one fails, from any thread, and
    whatever the outcome of [addRRefArgs(m)] every list that was pinned
    before is still pinned under its message id afterwards. *)
Theorem addRRefArgs_never_overwrites t messageId c :
  (is_Some (pendingRRefArgs_ c !! messageId) →
     addRRefArgs t messageId c
       = Throw (InternalAssert
                  "Cannot set RRef args on the same message twice.") c ∧
     fails (addRRefArgs t messageId c) ∧
     pendingRRefArgs_ (final (addRRefArgs t messageId c))
       = pendingRRefArgs_ c) ∧
  (∀ c1, addRRefArgs t messageId c = Ok tt c1 →
     ∀ t', fails (addRRefArgs t' messageId c1) ∧
           pendingRRefArgs_ (final (addRRefArgs t' messageId c1))
             = pendingRRefArgs_ c1) ∧
  (∀ m' args, pendingRRefArgs_ c !! m' = Some args →
     pendingRRefArgs_ (final (addRRefArgs t messageId c)) !! m' = Some args).
Proof.
  assert (∀ t0 c0, is_Some (pendingRRefArgs_ c0 !! messageId) →
            fails (addRRefArgs t0 messageId c0) ∧
            pendingRRefArgs_ (final (addRRefArgs t0 messageId c0))
              = pendingRRefArgs_ c0) as Htaken.
  { intros t0 c0 Hm. by rewrite addRRefArgs_taken. }
  split; [|split].
  - intros Hm. split; [by apply addRRefArgs_taken|]. by apply Htaken.
  - intros c1 Hrun t'. apply Htaken.
    destruct (pendingRRefArgs_ c !! messageId) as [l|] eqn:Hl.
    + rewrite addRRefArgs_taken in Hrun; [done|by rewrite Hl].
    + rewrite addRRefArgs_fresh in Hrun by done. inversion Hrun; subst.
      simpl. rewrite lookup_insert_eq. by eexists.
  - intros m' args Hargs.
    destruct (pendingRRefArgs_ c !! messageId) as [l|] eqn:Hl.
    + rewrite addRRefArgs_taken; [done|by rewrite Hl].
    + rewrite addRRefArgs_fresh by done. simpl.
      rewrite lookup_insert_ne; [done|]. intros <-. congruence.
Qed.

(** C10 at work: message 42 is pinned; setting its arguments again fails and
    the pinned list is still there. *)
Lemma addRRefArgs_never_overwrites_witness :
  fails (addRRefArgs 0%nat 42 Scenario.argument_pinned) ∧
  pendingRRefArgs_ (final (addRRefArgs 0%nat 42 Scenario.argument_pinned))
    !! 42 = Some [Scenario.the_user].
Proof.
  destruct (addRRefArgs_never_overwrites 0%nat 42 Scenario.argument_pinned)
    as (Htaken & _ & Hkept).
  split.
  - apply Htaken. exists [Scenario.the_user]. by vm_compute.
  - apply Hkept. by vm_compute.
Defined.

(** ** The two arrival orders of an accept, on worker 1 *)

(** Create, then accept: the fork is pending in between and both tables are
    empty at the end. *)
Example scenario_create_then_accept :
  pendingUsers_ Scenario.user_created
    = {[Scenario.fork_1_2 := Scenario.the_user]} ∧
  pendingUsers_ Scenario.user_accepted = ∅ ∧
  pendingAcceptedUsers_ Scenario.user_accepted = ∅.
Proof. repeat split; by vm_compute. Qed.

(** Accept, then create: the accept is buffered, the creation consumes it
    and [pendingUsers_] is never populated. *)
Example scenario_accept_before_create :
  pendingAcceptedUsers_ Scenario.accept_arrived_first
    = {[Scenario.fork_1_2]} ∧
  pendingUsers_ Scenario.accept_arrived_first = ∅ ∧
  createUserRRef IValue 0 Scenario.rref_0_1 Scenario.fork_1_2
    Scenario.accept_arrived_first
  = Ok Scenario.the_user
      (set_nextAddr S (initial Scenario.worker1)).
Proof. repeat split; by vm_compute. Qed.

(** ** addForkOfOwner *)

Lemma addForkOfOwner_fresh rid fid c :
  (fid ∉ default ∅ (forks_ c !! rid)) →
  addForkOfOwner rid fid c
    = Ok tt (set_forks
               (λ m, <[rid := default ∅ (m !! rid) ∪ {[fid]}]> m) c).
Proof.
  intros Hnew. unfold addForkOfOwner. unfold_monad. simpl.
  destruct (forks_ c !! rid) as [S|] eqn:HS; simpl in *.
  - rewrite HS. simpl. rewrite bool_decide_eq_true_2 by done.
    unfold set_forks. simpl. by rewrite HS.
  - rewrite lookup_insert_eq. simpl.
    rewrite bool_decide_eq_true_2 by done.
    unfold set_forks. simpl. rewrite HS. simpl.
    by rewrite insert_insert_eq.
Qed.

Lemma addForkOfOwner_duplicate rid fid c :
  fid ∈ default ∅ (forks_ c !! rid) →
  addForkOfOwner rid fid c
    = Throw (InternalAssert "Got fork notification twice on the same RRef ")
        c.
Proof.
  intros Hdup. unfold addForkOfOwner. unfold_monad. simpl.
  destruct (forks_ c !! rid) as [S|] eqn:HS; simpl in *.
  - rewrite HS. simpl.
    rewrite bool_decide_eq_false_2 by (intros Hn; by apply Hn).
    unfold set_forks. rewrite HS. by destruct c.
  - by apply elem_of_empty in Hdup.
Qed.

(** X1: [addForkOfOwner(rref_id, fork_id)] on a fork id that is not yet in
    [forks_[rref_id]] returns normally, adds exactly that id to the set
    (creating the set when the key was missing) and changes no other key and
    no other table; repeating the call then fails on the assertion and
    changes nothing. *)
Theorem addForkOfOwner_registers_once rid fid c :
  (fid ∉ default ∅ (forks_ c !! rid)) →
  ∃ c',
    addForkOfOwner rid fid c = Ok tt c' ∧
    c' = set_forks
           (λ m, <[rid := default ∅ (forks_ c !! rid) ∪ {[fid]}]> m) c ∧
    (∃ S : gset ForkId, forks_ c' !! rid = Some S ∧ fid ∈ S) ∧
    (∀ j, j ≠ rid → forks_ c' !! j = forks_ c !! j) ∧
    addForkOfOwner rid fid c'
      = Throw (InternalAssert "Got fork notification twice on the same RRef ")
          c'.
Proof.
  intros Hnew. eexists. split; [by apply addForkOfOwner_fresh|].
  split; [done|]. split.
  { eexists. simpl. rewrite lookup_insert_eq. split; [done|].
    apply elem_of_union_r. by apply elem_of_singleton. }
  split.
  { intros j Hj. simpl. by rewrite lookup_insert_ne. }
  apply addForkOfOwner_duplicate. simpl. rewrite lookup_insert_eq. simpl.
  apply elem_of_union_r. by apply elem_of_singleton.
Qed.

Lemma addForkOfOwner_registers_once_witness :
  ∃ c',
    addForkOfOwner Cluster.rref_0_1 Cluster.fork_1_2 Cluster.owner_created
      = Ok tt c' ∧
    forks_ c' !! Cluster.rref_0_1 = Some {[Cluster.fork_1_2]} ∧
    fails (addForkOfOwner Cluster.rref_0_1 Cluster.fork_1_2 c').
Proof.
  destruct (addForkOfOwner_registers_once Cluster.rref_0_1 Cluster.fork_1_2
              Cluster.owner_created)
    as (c' & Hrun & -> & _ & _ & Hdup); [compute_done|].
  eexists. split; [exact Hrun|]. split; [by vm_compute|].
  by rewrite Hdup.
Defined.

(** ** delForkOfOwner: failures and frame *)

Lemma delForkOfOwner_unknown_rref rid fid c :
  forks_ c !! rid = None →
  delForkOfOwner rid fid c
    = Throw (InternalAssert
        "Inconsistent states, deleting a fork before the owner knows it.") c.
Proof. intros HS. unfold delForkOfOwner. unfold_monad. by rewrite HS. Qed.

Lemma delForkOfOwner_unknown_fork rid fid c (S : gset ForkId) :
  forks_ c !! rid = Some S → (fid ∉ S) →
  delForkOfOwner rid fid c
    = Throw (InternalAssert "Attempt to delete a non-exist fork ") c.
Proof.
  intros HS Hn. unfold delForkOfOwner. unfold_monad. rewrite HS.
  by rewrite bool_decide_eq_false_2 by done.
Qed.

(** X2: [delForkOfOwner(rref_id, fork_id)] fails exactly when [fork_id] is
    not registered under [rref_id] (no set for [rref_id], or a set without
    [fork_id]), and a failed call changes nothing. *)
Theorem delForkOfOwner_fails_iff rid fid c :
  (fails (delForkOfOwner rid fid c) ↔ fid ∉ default ∅ (forks_ c !! rid)) ∧
  (fails (delForkOfOwner rid fid c) → final (delForkOfOwner rid fid c) = c).
Proof.
  destruct (forks_ c !! rid) as [S|] eqn:HS; simpl.
  - destruct (decide (fid ∈ S)) as [Hin|Hin].
    + rewrite (delForkOfOwner_registered rid fid c S) by done. simpl.
      split; [|done]. split; [done|]. intros Hn. by apply Hn.
    + rewrite (delForkOfOwner_unknown_fork rid fid c S) by done. simpl.
      by split.
  - rewrite delForkOfOwner_unknown_rref by done. simpl.
    split; [|done]. split; [|done]. intros _. apply not_elem_of_empty.
Qed.

(** X3: whatever its outcome, [delForkOfOwner(rref_id, fork_id)] leaves the
    fork sets and the owners of every other reference id as they were, and
    does not touch the pending tables, the pinned arguments or the agent. *)
Theorem delForkOfOwner_frame rid fid c :
  let c' := final (delForkOfOwner rid fid c) in
  (∀ j, j ≠ rid → forks_ c' !! j = forks_ c !! j) ∧
  (∀ j, j ≠ rid → owners_ c' !! j = owners_ c !! j) ∧
  pendingUsers_ c' = pendingUsers_ c ∧
  pendingForkRequests_ c' = pendingForkRequests_ c ∧
  pendingAcceptedUsers_ c' = pendingAcceptedUsers_ c ∧
  pendingRRefArgs_ c' = pendingRRefArgs_ c ∧
  rrefArgs_ c' = rrefArgs_ c ∧
  agent_ c' = agent_ c ∧
  nextLocalId_ c' = nextLocalId_ c.
Proof.
  destruct (forks_ c !! rid) as [S|] eqn:HS.
  - destruct (decide (fid ∈ S)) as [Hin|Hin].
    + rewrite (delForkOfOwner_registered rid fid c S) by done.
      case_decide; simpl; repeat split; try done; intros j Hj.
      * rewrite lookup_delete_ne by done. by rewrite lookup_insert_ne.
      * by rewrite lookup_delete_ne.
      * by rewrite lookup_insert_ne.
    + rewrite (delForkOfOwner_unknown_fork rid fid c S) by done.
      by repeat split.
  - rewrite delForkOfOwner_unknown_rref by done. by repeat split.
Qed.

(** X4 at work: the fork [(1,2)] of [(0,1)] on worker 0. *)
Lemma delForkOfOwner_other_fork_stays_witness :
  ∃ c', delForkOfOwner Cluster.rref_0_1 Cluster.fork_1_2
          Cluster.fork_registered = Ok tt c' ∧
        ∃ S' : gset ForkId,
          forks_ c' !! Cluster.rref_0_1 = Some S' ∧ Cluster.fork_1_2 ∈ S'.
Proof.
  destruct (delForkOfOwner_other_fork_stays Cluster.rref_0_1
              Cluster.fork_1_2 Cluster.fork_registered {[Cluster.fork_1_2]})
    as (c' & Hrun & S' & HS' & Hin & _).
  - by vm_compute.
  - compute_done.
  - discriminate.
  - exists c'. split; [exact Hrun|]. by exists S'.
Defined.

(** ** finishForkRequest *)

Lemma finishForkRequest_present fid c :
  is_Some (pendingForkRequests_ c !! fid) →
  finishForkRequest fid c
    = Ok tt (set_pendingForkRequests (λ m, delete fid m) c).
Proof.
  intros Hp. unfold finishForkRequest. unfold_monad.
  by rewrite bool_decide_eq_true_2 by done.
Qed.

Lemma finishForkRequest_missing fid c :
  pendingForkRequests_ c !! fid = None →
  finishForkRequest fid c
    = Throw (InternalAssert "Cannot finish a non-exist fork request.") c.
Proof.
  intros Hp. unfold finishForkRequest. unfold_monad.
  rewrite bool_decide_eq_false_2; [done|]. rewrite Hp. by intros [? ?].
Qed.

(** X5: [finishForkRequest(fork_id)] fails, changing nothing, exactly when
    [pendingForkRequests_] has no entry for [fork_id]; otherwise it removes
    that entry and no other, and a second call for the same id fails. *)
Theorem finishForkRequest_spec fid c :
  (pendingForkRequests_ c !! fid = None →
     finishForkRequest fid c
       = Throw (InternalAssert "Cannot finish a non-exist fork request.") c) ∧
  (is_Some (pendingForkRequests_ c !! fid) →
     ∃ c', finishForkRequest fid c = Ok tt c' ∧
           pendingForkRequests_ c' = delete fid (pendingForkRequests_ c) ∧
           (∀ g, g ≠ fid →
              pendingForkRequests_ c' !! g = pendingForkRequests_ c !! g) ∧
           fails (finishForkRequest fid c') ∧
           final (finishForkRequest fid c') = c').
Proof.
  split; [apply finishForkRequest_missing|].
  intros Hp. eexists. split; [by apply finishForkRequest_present|]. simpl.
  split; [done|]. split.
  { intros g Hg. by rewrite lookup_delete_ne. }
  rewrite finishForkRequest_missing; [done|]. simpl. apply lookup_delete_eq.
Qed.

Lemma finishForkRequest_spec_witness :
  fails (finishForkRequest Cluster.fork_1_2 Cluster.user_live) ∧
  ∃ c', finishForkRequest (mkGloballyUniqueId 1 0)
          (final (forkTo 0%nat Cluster.the_user 2 Cluster.user_live))
        = Ok tt c' ∧
        pendingForkRequests_ c' = ∅.
Proof.
  split.
  - rewrite (proj1 (finishForkRequest_spec Cluster.fork_1_2
                      Cluster.user_live)); [exact I|by vm_compute].
  - destruct (proj2 (finishForkRequest_spec (mkGloballyUniqueId 1 0)
                (final (forkTo 0%nat Cluster.the_user 2 Cluster.user_live))))
      as (c' & Hrun & Hdel & _).
    + exists Cluster.the_user. by vm_compute.
    + exists c'. split; [exact Hrun|]. rewrite Hdel. by vm_compute.
Defined.

(** ** delRRefArgs, and the round trip of a pinned list *)

Lemma delRRefArgs_missing messageId c :
  pendingRRefArgs_ c !! messageId = None →
  delRRefArgs messageId c
    = Throw (InternalAssert
               "Attempt to delete RRef args for non-exist message.") c.
Proof.
  intros Hm. unfold delRRefArgs. unfold_monad.
  rewrite bool_decide_eq_false_2; [done|]. rewrite Hm. by intros [? ?].
Qed.

(** X6: [delRRefArgs(m)] for a message id without an entry fails on its
    assertion and changes nothing; so releasing the same message twice fails
    the second time. *)
Theorem delRRefArgs_missing_fails messageId c :
  (pendingRRefArgs_ c !! messageId = None →
     delRRefArgs messageId c
       = Throw (InternalAssert
                  "Attempt to delete RRef args for non-exist message.") c) ∧
  (∀ c', delRRefArgs messageId c = Ok tt c' →
     fails (delRRefArgs messageId c') ∧
     final (delRRefArgs messageId c') = c').
Proof.
  split; [apply delRRefArgs_missing|].
  intros c' Hrun.
  destruct (pendingRRefArgs_ c !! messageId) as [l|] eqn:Hl.
  - rewrite delRRefArgs_present in Hrun by (by rewrite Hl).
    inversion Hrun; subst.
    rewrite delRRefArgs_missing; [done|]. simpl. apply lookup_delete_eq.
  - by rewrite delRRefArgs_missing in Hrun.
Qed.

Lemma delRRefArgs_missing_fails_witness :
  fails (delRRefArgs 42 (initial Cluster.worker1)) ∧
  fails (delRRefArgs 42 (final (delRRefArgs 42 Scenario.argument_pinned))).
Proof.
  split.
  - rewrite (proj1 (delRRefArgs_missing_fails 42 (initial Cluster.worker1)));
      [exact I|by vm_compute].
  - apply (proj2 (delRRefArgs_missing_fails 42 Scenario.argument_pinned)).
    by vm_compute.
Defined.

(** X7: dispatching a call as message [m] and then releasing [m] gives back
    the [pendingRRefArgs_] table there was before (when [m] had no entry),
    with the calling thread's scratch vector empty. *)
Theorem addRRefArgs_delRRefArgs_round_trip t messageId c :
  pendingRRefArgs_ c !! messageId = None →
  ∃ c1 c2,
    addRRefArgs t messageId c = Ok tt c1 ∧
    delRRefArgs messageId c1 = Ok tt c2 ∧
    pendingRRefArgs_ c2 = pendingRRefArgs_ c ∧
    rrefArgs_of t c2 = [] ∧
    c2 = set_rrefArgs (λ m, <[t := []]> m) c.
Proof.
  intros Hm. eexists _, _. split; [by apply addRRefArgs_fresh|].
  split.
  { apply delRRefArgs_present. simpl. rewrite lookup_insert_eq. by eexists. }
  simpl. rewrite delete_insert_id by done.
  split; [done|]. split.
  { unfold rrefArgs_of. simpl. by rewrite lookup_insert_eq. }
  unfold set_rrefArgs, set_pendingRRefArgs. simpl.
  by rewrite delete_insert_id.
Qed.

Lemma addRRefArgs_delRRefArgs_round_trip_witness :
  ∃ c1 c2,
    addRRefArgs 0%nat 42 Scenario.argument_prepared = Ok tt c1 ∧
    delRRefArgs 42 c1 = Ok tt c2 ∧
    pendingRRefArgs_ c2 = ∅.
Proof.
  destruct (addRRefArgs_delRRefArgs_round_trip 0%nat 42
              Scenario.argument_prepared)
    as (c1 & c2 & Hadd & Hdel & Hsame & _); [by vm_compute|].
  exists c1, c2. split; [exact Hadd|]. split; [exact Hdel|].
  rewrite Hsame. by vm_compute.
Defined.

(** ** forkTo towards a third party *)

Lemma forkTo_owner_run t rref forkDst c :
  isOwner (pointee rref) = true →
  owner (pointee rref) ≠ forkDst →
  (mkGloballyUniqueId (id_ (workerInfo_ (agent_ c))) (nextLocalId_ c)
     ∉ default ∅ (forks_ c !! rrefId (pointee rref))) →
  let rid := rrefId (pointee rref) in
  let fid := mkGloballyUniqueId (id_ (workerInfo_ (agent_ c)))
               (nextLocalId_ c) in
  forkTo t rref forkDst c
    = Ok (mkRRefForkData rid fid (id_ (workerInfo_ (agent_ c))))
        (set_agent
           (λ a, mkRpcAgent (workerInfo_ a)
                   (sent_ a ++ [(forkDst, RREF_USER_ACCEPT rid fid)])
                   (callbacks_ a
                    ++ [(length (sent_ a), OnAckDelForkOfOwner rid fid)]))
           (set_forks
              (λ m, <[rid := default ∅ (m !! rid) ∪ {[fid]}]> m)
              (set_nextLocalId (λ n, (n + 1) mod local_id_modulus)
                 (set_rrefArgs
                    (λ m, <[t := default [] (m !! t) ++ [rref]]> m) c)))).
Proof.
  intros Hown Hdst Hnew rid fid.
  unfold forkTo, acceptUserRRef, send, addCallback.
  unfold bind at 1. unfold modify at 1.
  unfold bind at 1. rewrite fork_run.
  rewrite decide_True by done. rewrite Hown.
  unfold bind at 1. unfold bind at 1. unfold bind at 1.
  rewrite addForkOfOwner_fresh by done.
  reflexivity.
Qed.

(** X8: [forkTo] of an Owner to a worker other than the owner registers the
    new fork id in [forks_[rref_id]] (when it is not there yet), sends
    [USER_ACCEPT(rref_id, new fork id)] to the destination and nothing else,
    adds the callback that deletes the fork on the ack to the future of that
    send, leaves [pendingForkRequests_] alone and returns the descriptor. *)
Theorem forkTo_from_owner t rref forkDst c :
  isOwner (pointee rref) = true →
  owner (pointee rref) ≠ forkDst →
  let rid := rrefId (pointee rref) in
  let fid := mkGloballyUniqueId (id_ (workerInfo_ (agent_ c)))
               (nextLocalId_ c) in
  (fid ∉ default ∅ (forks_ c !! rid)) →
  ∃ c',
    forkTo t rref forkDst c
      = Ok (mkRRefForkData rid fid (id_ (workerInfo_ (agent_ c)))) c' ∧
    sent_ (agent_ c')
      = sent_ (agent_ c) ++ [(forkDst, RREF_USER_ACCEPT rid fid)] ∧
    callbacks_ (agent_ c')
      = callbacks_ (agent_ c)
        ++ [(length (sent_ (agent_ c)), OnAckDelForkOfOwner rid fid)] ∧
    forks_ c' = <[rid := default ∅ (forks_ c !! rid) ∪ {[fid]}]> (forks_ c) ∧
    owners_ c' = owners_ c ∧
    pendingForkRequests_ c' = pendingForkRequests_ c ∧
    rrefArgs_of t c' = rrefArgs_of t c ++ [rref].
Proof.
  intros Hown Hdst rid fid Hnew.
  rewrite (forkTo_owner_run t rref forkDst c Hown Hdst Hnew).
  eexists. split; [reflexivity|]. simpl.
  repeat (split; [reflexivity|]).
  unfold rrefArgs_of. simpl. by rewrite lookup_insert_eq.
Qed.

Lemma forkTo_from_owner_witness :
  ∃ c',
    forkTo 0%nat Cluster.the_owner 2 Cluster.owner_created
      = Ok (mkRRefForkData Cluster.rref_0_1 (mkGloballyUniqueId 0 0) 0) c' ∧
    sent_ (agent_ c')
      = [(2, RREF_USER_ACCEPT Cluster.rref_0_1 (mkGloballyUniqueId 0 0))] ∧
    forks_ c' !! Cluster.rref_0_1 = Some {[mkGloballyUniqueId 0 0]}.
Proof.
  destruct (forkTo_from_owner 0%nat Cluster.the_owner 2
              Cluster.owner_created)
    as (c' & Hrun & Hsent & _ & Hforks & _).
  - reflexivity.
  - discriminate.
  - compute_done.
  - exists c'. split; [exact Hrun|]. split; [exact Hsent|].
    rewrite Hforks. by vm_compute.
Defined.

Lemma forkTo_user_run t rref forkDst c :
  isOwner (pointee rref) = false →
  owner (pointee rref) ≠ forkDst →
  let rid := rrefId (pointee rref) in
  let fid := mkGloballyUniqueId (id_ (workerInfo_ (agent_ c)))
               (nextLocalId_ c) in
  forkTo t rref forkDst c
    = Ok (mkRRefForkData rid fid (id_ (workerInfo_ (agent_ c))))
        (set_agent
           (λ a, mkRpcAgent (workerInfo_ a)
                   (sent_ a ++ [(owner (pointee rref),
                                 RREF_FORK_NOTIFY rid fid forkDst)])
                   (callbacks_ a
                    ++ [(length (sent_ a), OnForkAcceptFinishForkRequest)]))
           (set_pendingForkRequests (λ m, <[fid := rref]> m)
              (set_nextLocalId (λ n, (n + 1) mod local_id_modulus)
                 (set_rrefArgs
                    (λ m, <[t := default [] (m !! t) ++ [rref]]> m) c)))).
Proof.
  intros Hown Hdst rid fid.
  unfold forkTo, send, addCallback.
  unfold bind at 1. unfold modify at 1.
  unfold bind at 1. rewrite fork_run.
  rewrite decide_True by done. rewrite Hown.
  reflexivity.
Qed.

Lemma forkTo_user_branch t rref forkDst c :
  isOwner (pointee rref) = false →
  owner (pointee rref) ≠ forkDst →
  let rid := rrefId (pointee rref) in
  let fid := mkGloballyUniqueId (id_ (workerInfo_ (agent_ c)))
               (nextLocalId_ c) in
  ∃ c',
    forkTo t rref forkDst c
      = Ok (mkRRefForkData rid fid (id_ (workerInfo_ (agent_ c)))) c' ∧
    sent_ (agent_ c')
      = sent_ (agent_ c)
        ++ [(owner (pointee rref), RREF_FORK_NOTIFY rid fid forkDst)] ∧
    callbacks_ (agent_ c')
      = callbacks_ (agent_ c)
        ++ [(length (sent_ (agent_ c)), OnForkAcceptFinishForkRequest)] ∧
    pendingForkRequests_ c' = <[fid := rref]> (pendingForkRequests_ c) ∧
    forks_ c' = forks_ c ∧
    owners_ c' = owners_ c ∧
    rrefArgs_of t c' = rrefArgs_of t c ++ [rref].
Proof.
  intros Hown Hdst rid fid.
  rewrite (forkTo_user_run t rref forkDst c Hown Hdst).
  eexists. split; [reflexivity|]. simpl.
  repeat (split; [reflexivity|]).
  unfold rrefArgs_of. simpl. by rewrite lookup_insert_eq.
Qed.

(** X9: [forkTo] of a User to a worker other than the owner never fails: it
    pins the User in [pendingForkRequests_] under the new fork id, sends
    [FORK_NOTIFY(rref_id, new fork id, destination)] to the owner and
    nothing else, adds the fork-accept callback to that future, and leaves
    [forks_] and [owners_] alone. *)
Theorem forkTo_from_user t rref forkDst c :
  isOwner (pointee rref) = false →
  owner (pointee rref) ≠ forkDst →
  let rid := rrefId (pointee rref) in
  let fid := mkGloballyUniqueId (id_ (workerInfo_ (agent_ c)))
               (nextLocalId_ c) in
  ∃ c',
    forkTo t rref forkDst c
      = Ok (mkRRefForkData rid fid (id_ (workerInfo_ (agent_ c)))) c' ∧
    sent_ (agent_ c')
      = sent_ (agent_ c)
        ++ [(owner (pointee rref), RREF_FORK_NOTIFY rid fid forkDst)] ∧
    callbacks_ (agent_ c')
      = callbacks_ (agent_ c)
        ++ [(length (sent_ (agent_ c)), OnForkAcceptFinishForkRequest)] ∧
    pendingForkRequests_ c' = <[fid := rref]> (pendingForkRequests_ c) ∧
    forks_ c' = forks_ c ∧
    owners_ c' = owners_ c ∧
    rrefArgs_of t c' = rrefArgs_of t c ++ [rref].
Proof. apply forkTo_user_branch. Qed.

Lemma forkTo_from_user_witness :
  ∃ c',
    forkTo 0%nat Cluster.the_user 2 Cluster.user_live
      = Ok (mkRRefForkData Cluster.rref_0_1 (mkGloballyUniqueId 1 0) 1) c' ∧
    sent_ (agent_ c')
      = [(0, RREF_FORK_NOTIFY Cluster.rref_0_1 (mkGloballyUniqueId 1 0) 2)] ∧
    pendingForkRequests_ c' !! mkGloballyUniqueId 1 0
      = Some Cluster.the_user.
Proof.
  destruct (forkTo_from_user 0%nat Cluster.the_user 2 Cluster.user_live)
    as (c' & Hrun & Hsent & _ & Hpin & _).
  - reflexivity.
  - discriminate.
  - exists c'. split; [exact Hrun|]. split; [exact Hsent|].
    rewrite Hpin. by vm_compute.
Defined.

(** X10: after a User has been forked to a third party, the callback that
    receives the owner's [FORK_ACCEPT] of the new fork id returns normally
    and unpins the User; when the new fork id had no entry before, the
    table [pendingForkRequests_] is back to what it was before the fork. *)
Theorem forkTo_from_user_then_fork_accept t rref forkDst c :
  isOwner (pointee rref) = false →
  owner (pointee rref) ≠ forkDst →
  ∃ forkRequest c1 c2,
    forkTo t rref forkDst c = Ok forkRequest c1 ∧
    pendingForkRequests_ c1 !! forkId_ forkRequest = Some rref ∧
    runCallback OnForkAcceptFinishForkRequest
      (RREF_FORK_ACCEPT (forkId_ forkRequest)) c1 = Ok tt c2 ∧
    pendingForkRequests_ c2
      = delete (forkId_ forkRequest) (pendingForkRequests_ c) ∧
    (pendingForkRequests_ c !! forkId_ forkRequest = None →
       pendingForkRequests_ c2 = pendingForkRequests_ c).
Proof.
  intros Hown Hdst.
  destruct (forkTo_user_branch t rref forkDst c Hown Hdst)
    as (c1 & Hrun & _ & _ & Hpin & _).
  eexists _, c1, _. split; [exact Hrun|]. simpl.
  assert (pendingForkRequests_ c1
            !! mkGloballyUniqueId (id_ (workerInfo_ (agent_ c)))
                 (nextLocalId_ c) = Some rref) as Hlook.
  { rewrite Hpin. apply lookup_insert_eq. }
  split; [exact Hlook|]. split.
  { unfold runCallback, handleException. unfold bind at 1. unfold ret at 1.
    apply finishForkRequest_present. rewrite Hlook. by eexists. }
  simpl. rewrite Hpin. rewrite delete_insert_eq. split; [done|].
  intros Hnone. by apply delete_id.
Qed.

Lemma forkTo_from_user_then_fork_accept_witness :
  ∃ forkRequest c1 c2,
    forkTo 0%nat Cluster.the_user 2 Cluster.user_live = Ok forkRequest c1 ∧
    runCallback OnForkAcceptFinishForkRequest
      (RREF_FORK_ACCEPT (forkId_ forkRequest)) c1 = Ok tt c2 ∧
    pendingForkRequests_ c2 = ∅.
Proof.
  destruct (forkTo_from_user_then_fork_accept 0%nat Cluster.the_user 2
              Cluster.user_live)
    as (fr & c1 & c2 & Hrun & _ & Hcb & Hdel & _).
  - reflexivity.
  - discriminate.
  - exists fr, c1, c2. split; [exact Hrun|]. split; [exact Hcb|].
    rewrite Hdel. by vm_compute.
Defined.

(** ** Pinning happens on every path of forkTo *)

(** The context [forkTo] has reached when it tests the destination: the
    reference pushed, the fork id minted. *)
Lemma forkTo_owner_branch_duplicate t rref forkDst c :
  isOwner (pointee rref) = true →
  owner (pointee rref) ≠ forkDst →
  mkGloballyUniqueId (id_ (workerInfo_ (agent_ c))) (nextLocalId_ c)
    ∈ default ∅ (forks_ c !! rrefId (pointee rref)) →
  forkTo t rref forkDst c
    = Throw (InternalAssert "Got fork notification twice on the same RRef ")
        (set_nextLocalId (λ n, (n + 1) mod local_id_modulus)
           (set_rrefArgs (λ m, <[t := default [] (m !! t) ++ [rref]]> m) c)).
Proof.
  intros Hown Hdst Hdup.
  unfold forkTo, acceptUserRRef.
  unfold bind at 1. unfold modify at 1.
  unfold bind at 1. rewrite fork_run.
  rewrite decide_True by done. rewrite Hown.
  unfold bind at 1. unfold bind at 1. unfold bind at 1.
  by rewrite addForkOfOwner_duplicate by done.
Qed.

Lemma forkTo_final_frame t rref forkDst c :
  let c' := final (forkTo t rref forkDst c) in
  rrefArgs_ c' = <[t := rrefArgs_of t c ++ [rref]]> (rrefArgs_ c) ∧
  pendingRRefArgs_ c' = pendingRRefArgs_ c ∧
  pendingUsers_ c' = pendingUsers_ c ∧
  pendingAcceptedUsers_ c' = pendingAcceptedUsers_ c ∧
  owners_ c' = owners_ c.
Proof.
  destruct (decide (forkDst = owner (pointee rref))) as [Hdst|Hdst].
  { by rewrite forkTo_to_owner. }
  assert (owner (pointee rref) ≠ forkDst) as Hdst' by (intros He; by apply Hdst).
  destruct (isOwner (pointee rref)) eqn:Hown.
  - destruct (decide
      (mkGloballyUniqueId (id_ (workerInfo_ (agent_ c))) (nextLocalId_ c)
         ∈ default ∅ (forks_ c !! rrefId (pointee rref)))) as [Hdup|Hnew].
    + by rewrite forkTo_owner_branch_duplicate.
    + by rewrite (forkTo_owner_run t rref forkDst c Hown Hdst' Hnew).
  - by rewrite (forkTo_user_run t rref forkDst c Hown Hdst').
Qed.

(** X11: on every path of [forkTo], also the one that throws, the reference
    has been pushed at the end of the calling thread's [rrefArgs_] and no
    other thread's vector has changed; the next [addRRefArgs(m)] of that
    thread, for a message id without an entry, therefore pins the reference
    under [m]. *)
Theorem forkTo_always_pins t rref forkDst c :
  let c' := final (forkTo t rref forkDst c) in
  rrefArgs_of t c' = rrefArgs_of t c ++ [rref] ∧
  (∀ t', t' ≠ t → rrefArgs_of t' c' = rrefArgs_of t' c) ∧
  (∀ messageId, pendingRRefArgs_ c !! messageId = None →
     ∃ c2, addRRefArgs t messageId c' = Ok tt c2 ∧
           pendingRRefArgs_ c2 !! messageId
             = Some (rrefArgs_of t c ++ [rref])).
Proof.
  destruct (forkTo_final_frame t rref forkDst c)
    as (Hargs & Hpinned & _).
  simpl in *. set (c' := final (forkTo t rref forkDst c)) in *.
  assert (rrefArgs_of t c' = rrefArgs_of t c ++ [rref]) as Hpush.
  { unfold rrefArgs_of at 1. rewrite Hargs. by rewrite lookup_insert_eq. }
  split; [exact Hpush|]. split.
  - intros t' Hne. unfold rrefArgs_of. rewrite Hargs.
    by rewrite lookup_insert_ne.
  - intros messageId Hnone. eexists. split.
    + apply addRRefArgs_fresh. by rewrite Hpinned.
    + simpl. rewrite lookup_insert_eq. by rewrite Hpush.
Qed.

(** ** Callbacks and exceptions *)

(** X12: a callback that receives an [EXCEPTION] reply rethrows its text as
    a runtime error before it touches anything, so the context is unchanged.
    After a User has been forked to a third party, such a reply therefore
    leaves the User pinned in [pendingForkRequests_] under the new fork
    id. *)
Theorem runCallback_on_exception t rref forkDst err c :
  isOwner (pointee rref) = false →
  owner (pointee rref) ≠ forkDst →
  ∃ forkRequest c1,
    forkTo t rref forkDst c = Ok forkRequest c1 ∧
    (∀ cb, runCallback cb (EXCEPTION err) c1
             = Throw (RuntimeError err) c1) ∧
    pendingForkRequests_
      (final (runCallback OnForkAcceptFinishForkRequest (EXCEPTION err) c1))
      !! forkId_ forkRequest = Some rref.
Proof.
  intros Hown Hdst.
  rewrite (forkTo_user_run t rref forkDst c Hown Hdst).
  eexists _, _. split; [reflexivity|]. split; [done|].
  cbn [runCallback handleException final forkId_]. unfold bind, throw.
  cbn [final pendingForkRequests_ set_agent set_pendingForkRequests].
  apply lookup_insert_eq.
Qed.

(** ** acceptUserRRef and acceptForkRequest *)

Lemma acceptUserRRef_fresh rid fid c :
  (fid ∉ default ∅ (forks_ c !! rid)) →
  acceptUserRRef rid fid c
    = Ok (RREF_USER_ACCEPT rid fid)
        (set_forks (λ m, <[rid := default ∅ (m !! rid) ∪ {[fid]}]> m) c).
Proof.
  intros Hnew. unfold acceptUserRRef. unfold bind.
  by rewrite addForkOfOwner_fresh.
Qed.

Lemma acceptUserRRef_duplicate rid fid c :
  fid ∈ default ∅ (forks_ c !! rid) →
  acceptUserRRef rid fid c
    = Throw (InternalAssert "Got fork notification twice on the same RRef ")
        c.
Proof.
  intros Hdup. unfold acceptUserRRef. unfold bind.
  by rewrite addForkOfOwner_duplicate.
Qed.

Lemma acceptForkRequest_fresh rid fid forkDst c :
  (fid ∉ default ∅ (forks_ c !! rid)) →
  acceptForkRequest rid fid forkDst c
    = Ok (RREF_FORK_ACCEPT fid)
        (set_agent
           (λ a, mkRpcAgent (workerInfo_ a)
                   (sent_ a ++ [(forkDst, RREF_USER_ACCEPT rid fid)])
                   (callbacks_ a
                    ++ [(length (sent_ a), OnAckDelForkOfOwner rid fid)]))
           (set_forks (λ m, <[rid := default ∅ (m !! rid) ∪ {[fid]}]> m) c)).
Proof.
  intros Hnew. unfold acceptForkRequest. unfold bind at 1.
  by rewrite acceptUserRRef_fresh.
Qed.

Lemma acceptForkRequest_duplicate rid fid forkDst c :
  fid ∈ default ∅ (forks_ c !! rid) →
  acceptForkRequest rid fid forkDst c
    = Throw (InternalAssert "Got fork notification twice on the same RRef ")
        c.
Proof.
  intros Hdup. unfold acceptForkRequest. unfold bind at 1.
  by rewrite acceptUserRRef_duplicate.
Qed.

(** X13: [acceptForkRequest(rref_id, fork_id, dst)] for a fork id that is
    not registered yet registers it, sends [USER_ACCEPT(rref_id, fork_id)]
    to [dst] with the fork-deleting callback on its future, and returns the
    [FORK_ACCEPT(fork_id)] reply; for a fork id that is already registered
    it fails before anything is sent and changes nothing. *)
Theorem acceptForkRequest_spec rid fid forkDst c :
  ((fid ∉ default ∅ (forks_ c !! rid)) →
     ∃ c',
       acceptForkRequest rid fid forkDst c = Ok (RREF_FORK_ACCEPT fid) c' ∧
       forks_ c' = <[rid := default ∅ (forks_ c !! rid) ∪ {[fid]}]> (forks_ c) ∧
       sent_ (agent_ c')
         = sent_ (agent_ c) ++ [(forkDst, RREF_USER_ACCEPT rid fid)] ∧
       callbacks_ (agent_ c')
         = callbacks_ (agent_ c)
           ++ [(length (sent_ (agent_ c)), OnAckDelForkOfOwner rid fid)] ∧
       owners_ c' = owners_ c) ∧
  (fid ∈ default ∅ (forks_ c !! rid) →
     fails (acceptForkRequest rid fid forkDst c) ∧
     final (acceptForkRequest rid fid forkDst c) = c).
Proof.
  split.
  - intros Hnew. rewrite acceptForkRequest_fresh by done.
    eexists. split; [reflexivity|]. by repeat split.
  - intros Hdup. by rewrite acceptForkRequest_duplicate.
Qed.

Lemma acceptForkRequest_spec_witness :
  (∃ c', acceptForkRequest Cluster.rref_0_1 Cluster.fork_1_2 1
           Cluster.owner_created = Ok (RREF_FORK_ACCEPT Cluster.fork_1_2) c' ∧
         sent_ (agent_ c')
           = [(1, RREF_USER_ACCEPT Cluster.rref_0_1 Cluster.fork_1_2)]) ∧
  fails (acceptForkRequest Cluster.rref_0_1 Cluster.fork_1_2 1
           Cluster.fork_registered).
Proof.
  split.
  - destruct (proj1 (acceptForkRequest_spec Cluster.rref_0_1
                       Cluster.fork_1_2 1 Cluster.owner_created))
      as (c' & Hrun & _ & Hsent & _); [compute_done|].
    exists c'. split; [exact Hrun|]. exact Hsent.
  - apply (proj2 (acceptForkRequest_spec Cluster.rref_0_1
                    Cluster.fork_1_2 1 Cluster.fork_registered)).
    compute_done.
Defined.

(** ** getOrCreateRRef *)

Lemma getOrCreateOwnerRRef_returns T rid c :
  ¬ fails (getOrCreateOwnerRRef T rid c) ∧
  pendingUsers_ (final (getOrCreateOwnerRRef T rid c)) = pendingUsers_ c ∧
  pendingAcceptedUsers_ (final (getOrCreateOwnerRRef T rid c))
    = pendingAcceptedUsers_ c ∧
  is_Some (owners_ (final (getOrCreateOwnerRRef T rid c)) !! rid).
Proof.
  destruct (owners_ c !! rid) as [p|] eqn:Hp.
  - rewrite (getOrCreateOwnerRRef_present T rid c p Hp). simpl.
    rewrite Hp. split; [tauto|]. by repeat split.
  - rewrite (getOrCreateOwnerRRef_absent T rid c Hp). simpl.
    rewrite lookup_insert_eq. split; [tauto|]. by repeat split.
Qed.

Lemma createUserRRef_fails_iff T ownerId rid fid c :
  ownerId ≠ id_ (workerInfo_ (agent_ c)) →
  fails (createUserRRef T ownerId rid fid c)
  ↔ is_Some (pendingUsers_ c !! fid).
Proof.
  intros Ho. destruct (pendingUsers_ c !! fid) as [u|] eqn:Hu.
  - rewrite createUserRRef_twice; [|done|by rewrite Hu]. simpl.
    split; [by eexists|done].
  - destruct (decide (fid ∈ pendingAcceptedUsers_ c)) as [Hin|Hin].
    + rewrite createUserRRef_after_accept by done. simpl.
      split; [done|]. by intros [? ?].
    + rewrite createUserRRef_before_accept by done. simpl.
      split; [done|]. by intros [? ?].
Qed.

(** X14: [getOrCreateRRef(owner, rref_id, fork_id)] fails in one case only:
    the owner is another worker and [fork_id] is already a key of
    [pendingUsers_].  On the owner itself it never fails, never touches the
    pending tables and leaves an entry for [rref_id] in [owners_]. *)
Theorem getOrCreateRRef_fails_iff T ownerId rid fid c :
  (fails (getOrCreateRRef T ownerId rid fid c)
   ↔ ownerId ≠ id_ (workerInfo_ (agent_ c))
     ∧ is_Some (pendingUsers_ c !! fid)) ∧
  (ownerId = id_ (workerInfo_ (agent_ c)) →
     let c' := final (getOrCreateRRef T ownerId rid fid c) in
     pendingUsers_ c' = pendingUsers_ c ∧
     pendingAcceptedUsers_ c' = pendingAcceptedUsers_ c ∧
     is_Some (owners_ c' !! rid)).
Proof.
  destruct (decide (ownerId = id_ (workerInfo_ (agent_ c)))) as [Ho|Ho].
  - assert (getOrCreateRRef T ownerId rid fid c
              = getOrCreateOwnerRRef T rid c) as ->.
    { unfold getOrCreateRRef. unfold_monad. by rewrite decide_True. }
    destruct (getOrCreateOwnerRRef_returns T rid c) as (Hret & Hrest).
    split; [|intros _; exact Hrest].
    split; [done|]. by intros [Hne _].
  - assert (fails (getOrCreateRRef T ownerId rid fid c)
            ↔ fails (createUserRRef T ownerId rid fid c)) as ->.
    { unfold getOrCreateRRef. unfold_monad. rewrite decide_False by done.
      by destruct (createUserRRef T ownerId rid fid c). }
    rewrite createUserRRef_fails_iff by done.
    split; [|done]. tauto.
Qed.

Lemma runCallback_on_exception_witness :
  ∃ forkRequest c1,
    forkTo 0%nat Cluster.the_user 2 Cluster.user_live = Ok forkRequest c1 ∧
    runCallback OnForkAcceptFinishForkRequest (EXCEPTION "peer failed") c1
      = Throw (RuntimeError "peer failed") c1.
Proof.
  destruct (runCallback_on_exception 0%nat Cluster.the_user 2 "peer failed"
              Cluster.user_live)
    as (fr & c1 & Hrun & Hthrow & _).
  - reflexivity.
  - discriminate.
  - exists fr, c1. split; [exact Hrun|apply Hthrow].
Defined.

Lemma getOrCreateRRef_fails_iff_witness :
  fails (getOrCreateRRef IValue 0 Scenario.rref_0_1 Scenario.fork_1_2
           Scenario.user_created) ∧
  is_Some (owners_ (final (getOrCreateRRef IValue 0 Cluster.rref_0_1
                             Cluster.fork_1_2 (initial Cluster.worker0)))
             !! Cluster.rref_0_1).
Proof.
  destruct (getOrCreateRRef_fails_iff IValue 0 Scenario.rref_0_1
              Scenario.fork_1_2 Scenario.user_created) as [Hiff _].
  destruct (getOrCreateRRef_fails_iff IValue 0 Cluster.rref_0_1
              Cluster.fork_1_2 (initial Cluster.worker0)) as [_ Hown].
  split.
  - apply Hiff. split; [discriminate|]. eexists. by vm_compute.
  - apply Hown. reflexivity.
Defined.

Lemma forkTo_always_pins_witness :
  rrefArgs_of 0%nat (final (forkTo 0%nat Cluster.the_owner 2
                              Cluster.fork_registered))
    = [Cluster.the_owner] ∧
  ∃ c2, addRRefArgs 0%nat 7
          (final (forkTo 0%nat Cluster.the_owner 2 Cluster.fork_registered))
        = Ok tt c2 ∧
        pendingRRefArgs_ c2 !! 7 = Some [Cluster.the_owner].
Proof.
  destruct (forkTo_always_pins 0%nat Cluster.the_owner 2
              Cluster.fork_registered) as (Hpush & _ & Hpin).
  split; [exact Hpush|].
  destruct (Hpin 7) as (c2 & Hrun & Hm); [by vm_compute|].
  exists c2. split; [exact Hrun|exact Hm].
Defined.

Lemma delForkOfOwner_fails_iff_witness :
  fails (delForkOfOwner Cluster.rref_0_1 Cluster.fork_1_2
           Cluster.owner_created) ∧
  final (delForkOfOwner Cluster.rref_0_1 Cluster.fork_1_2
           Cluster.owner_created) = Cluster.owner_created.
Proof.
  destruct (delForkOfOwner_fails_iff Cluster.rref_0_1 Cluster.fork_1_2
              Cluster.owner_created) as [Hiff Hsame].
  assert (fails (delForkOfOwner Cluster.rref_0_1 Cluster.fork_1_2
                   Cluster.owner_created)) as Hf.
  { apply Hiff. compute_done. }
  split; [exact Hf|exact (Hsame Hf)].
Defined.

Lemma delForkOfOwner_frame_witness :
  owners_ (final (delForkOfOwner (mkGloballyUniqueId 0 9)
                    (mkGloballyUniqueId 0 9) Cluster.fork_registered))
    !! Cluster.rref_0_1 = Some Cluster.the_owner.
Proof.
  destruct (delForkOfOwner_frame (mkGloballyUniqueId 0 9)
              (mkGloballyUniqueId 0 9) Cluster.fork_registered)
    as (_ & Howners & _).
  rewrite (Howners Cluster.rref_0_1); [by vm_compute|discriminate].
Defined.

(** ** The lifecycle of the singleton *)

(** X15: [initInstance] succeeds only on the uninitialised [context_] and
    with a non-null agent; [getInstance] then returns the context
    constructed around that agent, with every table empty, and any further
    [initInstance] fails.  Before a successful [initInstance],
    [getInstance] fails. *)
Theorem initInstance_only_once agent agent' context_ context' :
  initInstance agent context_ = inr context' →
  context_ = None ∧
  getInstance context_
    = inl (TorchCheck "Have to initialize RRefContext before use.") ∧
  (∃ a, agent = Some a ∧ getInstance context' = inr (construct a)) ∧
  initInstance agent' context'
    = inl (TorchCheck "Can only initialize RRefContext once.").
Proof.
  intros Hinit. destruct context_ as [c|]; [done|].
  destruct agent as [a|]; [|done]. simpl in Hinit.
  inversion Hinit; subst. split; [done|]. split; [done|].
  split; [by exists a|done].
Qed.

Lemma initInstance_only_once_witness :
  getInstance (Some (initial Cluster.worker0))
    = inr (initial Cluster.worker0) ∧
  initInstance None (Some (initial Cluster.worker0))
    = inl (TorchCheck "Can only initialize RRefContext once.").
Proof.
  destruct (initInstance_only_once
              (Some (mkRpcAgent Cluster.worker0 [] [])) None None
              (Some (initial Cluster.worker0)))
    as (_ & _ & (a & Ha & Hget) & Hagain); [reflexivity|].
  split; [|exact Hagain]. rewrite Hget. inversion Ha. reflexivity.
Defined.

(** ** The overload that mints its ids *)

Lemma createUserRRef_fresh_on_owner T ownerId b c :
  ownerId = id_ (workerInfo_ (agent_ c)) →
  createUserRRef_fresh T ownerId b c
    = Throw (TorchCheck "Cannot create UserRRef on owner.") c.
Proof.
  intros ->. unfold createUserRRef_fresh. unfold_monad.
  by rewrite bool_decide_eq_false_2 by (intros H; by apply H).
Qed.

Lemma createUserRRef_fresh_on_user T ownerId b c :
  ownerId ≠ id_ (workerInfo_ (agent_ c)) →
  let self := id_ (workerInfo_ (agent_ c)) in
  let first := mkGloballyUniqueId self (nextLocalId_ c) in
  let second := mkGloballyUniqueId self
                  ((nextLocalId_ c + 1) mod local_id_modulus) in
  createUserRRef_fresh T ownerId b c
    = createUserRRef T ownerId
        (if b then first else second) (if b then second else first)
        (set_nextLocalId (λ n, (n + 1) mod local_id_modulus)
           (set_nextLocalId (λ n, (n + 1) mod local_id_modulus) c)).
Proof.
  intros Ho. unfold createUserRRef_fresh.
  unfold bind at 1. unfold getWorkerId at 1. unfold gets at 1.
  rewrite bool_decide_eq_true_2 by done.
  unfold bind at 1. unfold TORCH_CHECK, ret at 1.
  unfold bind at 1. rewrite genGloballyUniqueId_run.
  unfold bind at 1. rewrite genGloballyUniqueId_run.
  by destruct b.
Qed.

Lemma createUserRRef_Ok_result T ownerId rid fid c u c' :
  createUserRRef T ownerId rid fid c = Ok u c' →
  u = mkPtr (nextAddr_ c) (UserRRef T ownerId rid fid) ∧
  nextLocalId_ c' = nextLocalId_ c ∧
  agent_ c' = agent_ c.
Proof.
  intros Hrun.
  destruct (decide (ownerId = id_ (workerInfo_ (agent_ c)))) as [Ho|Ho].
  { by rewrite createUserRRef_on_owner in Hrun. }
  destruct (pendingUsers_ c !! fid) as [v|] eqn:Hv.
  { assert (is_Some (pendingUsers_ c !! fid)) as Hs by (by exists v).
    by rewrite createUserRRef_twice in Hrun. }
  destruct (decide (fid ∈ pendingAcceptedUsers_ c)) as [Hin|Hin].
  - rewrite createUserRRef_after_accept in Hrun by done.
    by inversion Hrun; subst.
  - rewrite createUserRRef_before_accept in Hrun by done.
    by inversion Hrun; subst.
Qed.

(** X16: the one-argument [createUserRRef(owner)] fails on the owner itself
    before it mints anything (the context, counter included, is unchanged).
    On another worker, whichever of its two ids the compiler mints first,
    a call that returns yields a User of [owner] whose [rref_id] and
    [fork_id] are both minted by the local worker and differ, and it has
    advanced the counter by two. *)
Theorem createUserRRef_fresh_spec T ownerId b c :
  (ownerId = id_ (workerInfo_ (agent_ c)) →
     createUserRRef_fresh T ownerId b c
       = Throw (TorchCheck "Cannot create UserRRef on owner.") c) ∧
  (ownerId ≠ id_ (workerInfo_ (agent_ c)) → counter_in_range c →
     ∀ u c', createUserRRef_fresh T ownerId b c = Ok u c' →
       ∃ rid fid,
         pointee u = UserRRef T ownerId rid fid ∧
         worker_id rid = id_ (workerInfo_ (agent_ c)) ∧
         worker_id fid = id_ (workerInfo_ (agent_ c)) ∧
         rid ≠ fid ∧
         nextLocalId_ c' = (nextLocalId_ c + 2) mod local_id_modulus).
Proof.
  split; [apply createUserRRef_fresh_on_owner|].
  intros Ho [Hlo Hhi] u c' Hrun.
  rewrite createUserRRef_fresh_on_user in Hrun by done.
  apply createUserRRef_Ok_result in Hrun as (-> & Hn & _).
  eexists _, _. split; [reflexivity|].
  assert (nextLocalId_ c ≠ (nextLocalId_ c + 1) mod local_id_modulus) as Hne.
  { unfold local_id_modulus in *.
    destruct (decide (nextLocalId_ c + 1 = 2 ^ 64)) as [He|He].
    - rewrite He, Z.mod_same by lia. lia.
    - rewrite Z.mod_small by lia. lia. }
  assert (nextLocalId_ c' = (nextLocalId_ c + 2) mod local_id_modulus) as ->.
  { rewrite Hn. simpl.
    rewrite Z.add_mod_idemp_l by (unfold local_id_modulus; lia).
    f_equal. lia. }
  destruct b; simpl; repeat split; try done; intros Heq; inversion Heq; lia.
Qed.

Lemma createUserRRef_fresh_spec_witness :
  fails (createUserRRef_fresh IValue 1 true (initial Cluster.worker1)) ∧
  ∃ u c', createUserRRef_fresh IValue 0 true (initial Cluster.worker1)
            = Ok u c' ∧
          nextLocalId_ c' = 2.
Proof.
  destruct (createUserRRef_fresh_spec IValue 1 true
              (initial Cluster.worker1)) as [Hown _].
  destruct (createUserRRef_fresh_spec IValue 0 true
              (initial Cluster.worker1)) as [_ Huser].
  split; [rewrite Hown; [exact I|reflexivity]|].
  eexists _, _. split; [by vm_compute|].
  destruct (Huser ltac:(discriminate) ltac:(by vm_compute) _ _ eq_refl)
    as (rid & fid & _ & _ & _ & _ & Hn).
  exact Hn.
Defined.

(** ** The creation and its accept, in either order *)

(** X17: for a fork id that is in neither pending table, creating the User
    and then accepting it, or accepting it and then creating the User, both
    succeed, return the same User and end in the same context: the tables
    are as before.  The early accept is matched by fork id alone: the
    [rref_id] it carries is not compared with the User created later. *)
Theorem create_and_accept_commute T ownerId rid rid' fid c :
  ownerId ≠ id_ (workerInfo_ (agent_ c)) →
  pendingUsers_ c !! fid = None →
  (fid ∉ pendingAcceptedUsers_ c) →
  ∃ u c1 c2,
    createUserRRef T ownerId rid fid c = Ok u c1 ∧
    finishUserRRef rid fid c1 = Ok tt (set_nextAddr S c) ∧
    finishUserRRef rid' fid c = Ok tt c2 ∧
    createUserRRef T ownerId rid fid c2 = Ok u (set_nextAddr S c).
Proof.
  intros Ho Hpu Hpau.
  eexists _, _, _.
  split; [by apply createUserRRef_before_accept|].
  split.
  { erewrite finishUserRRef_pending;
      [|done|simpl; apply lookup_insert_eq|done].
    unfold set_pendingUsers, set_nextAddr. simpl.
    by rewrite delete_insert_id. }
  split; [by apply finishUserRRef_not_created|].
  rewrite createUserRRef_after_accept; [|done|done|].
  - unfold set_pendingAcceptedUsers, set_nextAddr. simpl. do 2 f_equal.
    apply set_eq. intros x.
    rewrite elem_of_difference, elem_of_union, elem_of_singleton.
    split; [tauto|]. intros Hx. split; [by left|]. by intros ->.
  - simpl. apply elem_of_union_r. by apply elem_of_singleton.
Qed.

Lemma create_and_accept_commute_witness :
  ∃ u c1 c2,
    createUserRRef IValue 0 Cluster.rref_0_1 Cluster.fork_1_2
      (initial Cluster.worker1) = Ok u c1 ∧
    finishUserRRef Cluster.rref_0_1 Cluster.fork_1_2 c1
      = Ok tt (set_nextAddr S (initial Cluster.worker1)) ∧
    finishUserRRef (mkGloballyUniqueId 5 5) Cluster.fork_1_2
      (initial Cluster.worker1) = Ok tt c2 ∧
    createUserRRef IValue 0 Cluster.rref_0_1 Cluster.fork_1_2 c2
      = Ok u (set_nextAddr S (initial Cluster.worker1)).
Proof.
  apply (create_and_accept_commute IValue 0 Cluster.rref_0_1
           (mkGloballyUniqueId 5 5) Cluster.fork_1_2
           (initial Cluster.worker1)).
  - discriminate.
  - by vm_compute.
  - compute_done.
Defined.

(** ** The counter at its upper end *)

(** X18: the counter wraps.  Of two successive [genGloballyUniqueId()]
    calls made when the counter holds its largest value, the first returns
    local id [2^64 - 1] and the second local id [0]; a worker that has
    minted [2^64] identifiers starts minting the same ones again. *)
Theorem genGloballyUniqueId_wraps_to_zero c :
  nextLocalId_ c = local_id_modulus - 1 →
  ∃ c',
    call_k 2 genGloballyUniqueId c
      = Ok [mkGloballyUniqueId (id_ (workerInfo_ (agent_ c)))
              (local_id_modulus - 1);
            mkGloballyUniqueId (id_ (workerInfo_ (agent_ c))) 0] c' ∧
    nextLocalId_ c' = 1.
Proof.
  intros Hn.
  set (next := λ n : local_id_t, (n + 1) mod local_id_modulus).
  assert (nextLocalId_ (set_nextLocalId next c) = 0) as Hzero.
  { unfold set_nextLocalId, next. cbn [nextLocalId_]. rewrite Hn.
    by vm_compute. }
  exists (set_nextLocalId next (set_nextLocalId next c)). split.
  - rewrite (call_k_S _ c _ (set_nextLocalId next c)
               [mkGloballyUniqueId (id_ (workerInfo_ (agent_ c))) 0]
               (set_nextLocalId next (set_nextLocalId next c)) 1
               (genGloballyUniqueId_run c)).
    + by rewrite Hn.
    + rewrite (call_k_S _ _ _ (set_nextLocalId next (set_nextLocalId next c))
                 [] (set_nextLocalId next (set_nextLocalId next c)) 0
                 (genGloballyUniqueId_run (set_nextLocalId next c)) eq_refl).
      by rewrite Hzero.
  - change (next (nextLocalId_ (set_nextLocalId next c)) = 1).
    rewrite Hzero. by vm_compute.
Qed.

Lemma genGloballyUniqueId_wraps_to_zero_witness :
  ∃ c',
    call_k 2 genGloballyUniqueId
      (set_nextLocalId (λ _, local_id_modulus - 1) (initial Cluster.worker1))
      = Ok [mkGloballyUniqueId 1 (local_id_modulus - 1);
            mkGloballyUniqueId 1 0] c' ∧
    nextLocalId_ c' = 1.
Proof.
  apply (genGloballyUniqueId_wraps_to_zero
           (set_nextLocalId (λ _, local_id_modulus - 1)
              (initial Cluster.worker1))).
  reflexivity.
Defined.

(** ** What every history of calls preserves *)

Lemma updates_pending_disjoint c c' :
  updates c c' → pending_disjoint c → pending_disjoint c'.
Proof.
  induction 1 as [| |c|c|f c|f c|f c|f c|rid fid c|rid S c HS|rid S c
                  |dst message cb c|fid u c Hn|fid c|fid c|fid c Hn];
    intros Hinv; auto; try exact Hinv.
  - intros g [Hg Hacc]. simpl in *.
    destruct (decide (g = fid)) as [->|Hne]; [done|].
    rewrite lookup_insert_ne in Hg by done. by apply (Hinv g).
  - intros g [Hg Hacc]. simpl in *.
    destruct (decide (g = fid)) as [->|Hne].
    + rewrite lookup_delete_eq in Hg. by destruct Hg.
    + rewrite lookup_delete_ne in Hg by done. by apply (Hinv g).
  - intros g [Hg Hacc]. simpl in *.
    apply elem_of_difference in Hacc as [Hacc _]. by apply (Hinv g).
  - intros g [Hg Hacc]. simpl in *.
    apply elem_of_union in Hacc as [Hacc|Hacc]; [by apply (Hinv g)|].
    apply elem_of_singleton in Hacc as ->. rewrite Hn in Hg. by destruct Hg.
Qed.

Lemma updates_no_empty_forks c c' :
  updates c c' → no_empty_forks c → no_empty_forks c'.
Proof.
  induction 1 as [| |c|c|f c|f c|f c|f c|rid fid c|rid S c HS|rid S c
                  |dst message cb c|fid u c Hn|fid c|fid c|fid c Hn];
    intros Hinv; auto; try exact Hinv.
  - intros j X HX. simpl in HX.
    destruct (decide (j = rid)) as [->|Hne].
    + rewrite lookup_insert_eq in HX. inversion HX; subst.
      intros He. assert (fid ∈ (∅ : gset ForkId)) as Hin.
      { rewrite <- He. apply elem_of_union_r. by apply elem_of_singleton. }
      by apply elem_of_empty in Hin.
    + rewrite lookup_insert_ne in HX by done. by apply (Hinv j).
  - intros j X HX. simpl in HX.
    destruct (decide (j = rid)) as [->|Hne].
    + rewrite lookup_insert_eq in HX. by inversion HX; subst.
    + rewrite lookup_insert_ne in HX by done. by apply (Hinv j).
  - intros j X HX. simpl in HX.
    destruct (decide (j = rid)) as [->|Hne].
    + by rewrite lookup_delete_eq in HX.
    + rewrite lookup_delete_ne, lookup_insert_ne in HX by done.
      by apply (Hinv j).
Qed.

Lemma updates_callbacks_paired c c' :
  updates c c' → callbacks_paired c → callbacks_paired c'.
Proof.
  induction 1 as [| |c|c|f c|f c|f c|f c|rid fid c|rid S c HS|rid S c
                  |dst message cb c|fid u c Hn|fid c|fid c|fid c Hn];
    intros Hinv; auto; try exact Hinv.
  unfold callbacks_paired in *. simpl.
  rewrite fmap_app, Hinv, length_app. simpl.
  by rewrite Nat.add_1_r, seq_S.
Qed.



(** Decomposes the context a run lemma states into elementary writes. *)
Ltac ups :=
  lazymatch goal with
  | |- updates ?c ?c => apply up_none
  | |- updates ?c (set_forks (λ m, delete ?r m)
                     (set_owners _ (set_forks _ ?c0))) =>
      apply (up_then c c0); [ups | apply up_fork_teardown]
  | |- updates ?c (_ _ ?c0) =>
      apply (up_then c c0);
      [ ups
      | first [ apply up_counter | apply up_alloc | apply up_rrefArgs
              | apply up_pendingRRefArgs | apply up_owners
              | apply up_pendingForkRequests | apply up_fork_add
              | apply up_send | apply up_user_accepted
              | apply up_accept_consumed
              | apply up_fork_shrink; assumption
              | apply up_user_pending; assumption
              | apply up_accept_early; assumption ] ]
  end.

Lemma genGloballyUniqueId_updates c :
  updates c (final (genGloballyUniqueId c)).
Proof. rewrite genGloballyUniqueId_run. cbn [final]. ups. Qed.

Lemma createUserRRef_updates T ownerId rid fid c :
  updates c (final (createUserRRef T ownerId rid fid c)).
Proof.
  destruct (decide (ownerId = id_ (workerInfo_ (agent_ c)))) as [Ho|Ho].
  { rewrite createUserRRef_on_owner by done. apply up_none. }
  destruct (pendingUsers_ c !! fid) as [v|] eqn:Hv.
  { rewrite createUserRRef_twice; [|done|by rewrite Hv]. cbn [final]. ups. }
  destruct (decide (fid ∈ pendingAcceptedUsers_ c)) as [Hin|Hin].
  - rewrite createUserRRef_after_accept by done. cbn [final]. ups.
  - rewrite createUserRRef_before_accept by done. cbn [final]. ups.
Qed.

Lemma createUserRRef_fresh_updates T ownerId b c :
  updates c (final (createUserRRef_fresh T ownerId b c)).
Proof.
  destruct (decide (ownerId = id_ (workerInfo_ (agent_ c)))) as [Ho|Ho].
  { rewrite createUserRRef_fresh_on_owner by done. apply up_none. }
  rewrite createUserRRef_fresh_on_user by done.
  eapply up_then; [|apply createUserRRef_updates]. ups.
Qed.

Lemma getOrCreateOwnerRRef_updates T rid c :
  updates c (final (getOrCreateOwnerRRef T rid c)).
Proof.
  destruct (owners_ c !! rid) as [p|] eqn:Hp.
  - rewrite (getOrCreateOwnerRRef_present T rid c p Hp). apply up_none.
  - rewrite (getOrCreateOwnerRRef_absent T rid c Hp). cbn [final]. ups.
Qed.

Lemma getOrCreateRRef_updates T ownerId rid fid c :
  updates c (final (getOrCreateRRef T ownerId rid fid c)).
Proof.
  unfold getOrCreateRRef. unfold bind at 1.
  unfold getWorkerId at 1. unfold gets at 1.
  case_decide.
  - apply getOrCreateOwnerRRef_updates.
  - pose proof (createUserRRef_updates T ownerId rid fid c) as Hup.
    unfold bind. by destruct (createUserRRef T ownerId rid fid c).
Qed.

Lemma addForkOfOwner_updates rid fid c :
  updates c (final (addForkOfOwner rid fid c)).
Proof.
  destruct (decide (fid ∈ default ∅ (forks_ c !! rid))) as [Hin|Hin].
  - rewrite addForkOfOwner_duplicate by done. apply up_none.
  - rewrite addForkOfOwner_fresh by done. cbn [final]. ups.
Qed.

Lemma acceptUserRRef_updates rid fid c :
  updates c (final (acceptUserRRef rid fid c)).
Proof.
  destruct (decide (fid ∈ default ∅ (forks_ c !! rid))) as [Hin|Hin].
  - rewrite acceptUserRRef_duplicate by done. apply up_none.
  - rewrite acceptUserRRef_fresh by done. cbn [final]. ups.
Qed.

Lemma acceptForkRequest_updates rid fid forkDst c :
  updates c (final (acceptForkRequest rid fid forkDst c)).
Proof.
  destruct (decide (fid ∈ default ∅ (forks_ c !! rid))) as [Hin|Hin].
  - rewrite acceptForkRequest_duplicate by done. apply up_none.
  - rewrite acceptForkRequest_fresh by done. cbn [final]. ups.
Qed.

Lemma delForkOfOwner_updates rid fid c :
  updates c (final (delForkOfOwner rid fid c)).
Proof.
  destruct (forks_ c !! rid) as [S|] eqn:HS.
  - destruct (decide (fid ∈ S)) as [Hin|Hin].
    + rewrite (delForkOfOwner_registered rid fid c S) by done.
      cbn [final]. case_decide; ups.
    + rewrite (delForkOfOwner_unknown_fork rid fid c S) by done.
      apply up_none.
  - rewrite delForkOfOwner_unknown_rref by done. apply up_none.
Qed.

Lemma finishForkRequest_updates fid c :
  updates c (final (finishForkRequest fid c)).
Proof.
  destruct (pendingForkRequests_ c !! fid) as [u|] eqn:Hu.
  - rewrite finishForkRequest_present by (by rewrite Hu). cbn [final]. ups.
  - rewrite finishForkRequest_missing by done. apply up_none.
Qed.

Lemma finishUserRRef_updates rid fid c :
  updates c (final (finishUserRRef rid fid c)).
Proof.
  destruct (decide (fid ∈ pendingAcceptedUsers_ c)) as [Hin|Hin].
  { rewrite finishUserRRef_already_accepted by done. apply up_none. }
  destruct (pendingUsers_ c !! fid) as [u|] eqn:Hu.
  - destruct (decide (rrefId (pointee u) = rid)) as [Hr|Hr].
    + rewrite (finishUserRRef_pending rid fid c u) by done. cbn [final]. ups.
    + rewrite (finishUserRRef_wrong_rrefId rid fid c u) by done.
      apply up_none.
  - rewrite finishUserRRef_not_created by done. cbn [final]. ups.
Qed.

Lemma forkTo_updates t rref forkDst c :
  updates c (final (forkTo t rref forkDst c)).
Proof.
  destruct (decide (forkDst = owner (pointee rref))) as [Hdst|Hdst].
  { rewrite forkTo_to_owner by done. cbn [final]. ups. }
  assert (owner (pointee rref) ≠ forkDst) as Hdst'
    by (intros He; by apply Hdst).
  destruct (isOwner (pointee rref)) eqn:Hown.
  - destruct (decide
      (mkGloballyUniqueId (id_ (workerInfo_ (agent_ c))) (nextLocalId_ c)
         ∈ default ∅ (forks_ c !! rrefId (pointee rref)))) as [Hdup|Hnew].
    + rewrite forkTo_owner_branch_duplicate by done. cbn [final]. ups.
    + rewrite (forkTo_owner_run t rref forkDst c Hown Hdst' Hnew).
      cbn [final]. ups.
  - rewrite (forkTo_user_run t rref forkDst c Hown Hdst'). cbn [final]. ups.
Qed.

Lemma addRRefArgs_updates t messageId c :
  updates c (final (addRRefArgs t messageId c)).
Proof.
  destruct (pendingRRefArgs_ c !! messageId) as [l|] eqn:Hl.
  - rewrite addRRefArgs_taken by (by rewrite Hl). apply up_none.
  - rewrite addRRefArgs_fresh by done. cbn [final]. ups.
Qed.

Lemma delRRefArgs_updates messageId c :
  updates c (final (delRRefArgs messageId c)).
Proof.
  destruct (pendingRRefArgs_ c !! messageId) as [l|] eqn:Hl.
  - rewrite delRRefArgs_present by (by rewrite Hl). cbn [final]. ups.
  - rewrite delRRefArgs_missing by done. apply up_none.
Qed.

Lemma runCallback_updates cb message c :
  updates c (final (runCallback cb message c)).
Proof.
  destruct message; try apply up_none;
    destruct cb; try apply up_none;
    first [apply delForkOfOwner_updates | apply finishForkRequest_updates].
Qed.

Lemma after_updates k c : updates c (after k c).
Proof.
  destruct k; simpl;
    auto using genGloballyUniqueId_updates, createUserRRef_fresh_updates,
      createUserRRef_updates, getOrCreateRRef_updates,
      getOrCreateOwnerRRef_updates, forkTo_updates, acceptUserRRef_updates,
      acceptForkRequest_updates, finishForkRequest_updates,
      finishUserRRef_updates, addForkOfOwner_updates, delForkOfOwner_updates,
      addRRefArgs_updates, delRRefArgs_updates, runCallback_updates.
Qed.

Lemma after_all_updates ks : ∀ c, updates c (after_all ks c).
Proof.
  induction ks as [|k ks IH]; intros c; [apply up_none|].
  simpl. eapply up_then; [apply after_updates|apply IH].
Qed.

(** X19: no history of member-function calls and callback runs, returning
    or throwing, in any order and with any arguments, makes a fork id a key
    of [pendingUsers_] and a member of [pendingAcceptedUsers_] at once, once
    the two are apart. *)
Theorem every_history_keeps_pending_disjoint ks c :
  pending_disjoint c → pending_disjoint (after_all ks c).
Proof. apply updates_pending_disjoint, after_all_updates. Qed.

Lemma every_history_keeps_pending_disjoint_witness :
  ¬ (is_Some (pendingUsers_
                (after_all Cluster.worker1_history (initial Cluster.worker1))
                !! Cluster.fork_1_2)
     ∧ Cluster.fork_1_2
         ∈ pendingAcceptedUsers_
             (after_all Cluster.worker1_history (initial Cluster.worker1))).
Proof.
  apply (every_history_keeps_pending_disjoint Cluster.worker1_history
           (initial Cluster.worker1)).
  apply pending_disjoint_initial.
Defined.

(** X20: [forks_] never maps a reference id to an empty set: in every
    context reached from one without empty sets, whatever was called, each
    set in [forks_] has a member.  ([addForkOfOwner] fills the set it
    creates, [delForkOfOwner] erases the set it empties.) *)
Theorem every_history_keeps_fork_sets_inhabited ks c :
  no_empty_forks c → no_empty_forks (after_all ks c).
Proof. apply updates_no_empty_forks, after_all_updates. Qed.

Lemma every_history_keeps_fork_sets_inhabited_witness :
  ∃ S : gset ForkId,
    forks_ (after_all Cluster.worker0_history (initial Cluster.worker0))
      !! Cluster.rref_0_1 = Some S ∧
    S ≠ ∅.
Proof.
  assert (no_empty_forks (initial Cluster.worker0)) as Hinit.
  { intros rid S HS. simpl in HS. by rewrite lookup_empty in HS. }
  pose proof (every_history_keeps_fork_sets_inhabited
                Cluster.worker0_history (initial Cluster.worker0) Hinit
                Cluster.rref_0_1) as Hinv.
  destruct (forks_ (after_all Cluster.worker0_history
                      (initial Cluster.worker0)) !! Cluster.rref_0_1)
    as [S|] eqn:HS.
  - exists S. split; [reflexivity|]. by apply Hinv.
  - exfalso. revert HS. vm_compute. discriminate.
Defined.

(** X21: every message the context hands to the agent gets one callback, on
    the future of that very send and in sending order: after any history
    the futures of the registered callbacks are [0, 1, ..., n-1] for [n]
    messages sent.  In particular a call that throws has sent nothing it
    did not also register a callback for. *)
Theorem every_history_keeps_callbacks_paired ks c :
  callbacks_paired c → callbacks_paired (after_all ks c).
Proof. apply updates_callbacks_paired, after_all_updates. Qed.

Lemma every_history_keeps_callbacks_paired_witness :
  (callbacks_ (agent_ (after_all Cluster.worker0_history
                         (initial Cluster.worker0)))).*1
    = seq 0 (length (sent_ (agent_ (after_all Cluster.worker0_history
                                      (initial Cluster.worker0))))).
Proof.
  apply (every_history_keeps_callbacks_paired Cluster.worker0_history
           (initial Cluster.worker0)).
  reflexivity.
Defined.



(** The two histories do what their comments say. *)
Example worker0_history_outcome :
  sent_ (agent_ (after_all Cluster.worker0_history (initial Cluster.worker0)))
    = [(1, RREF_USER_ACCEPT Cluster.rref_0_1 (mkGloballyUniqueId 0 2));
       (2, RREF_USER_ACCEPT Cluster.rref_0_1 (mkGloballyUniqueId 0 3));
       (3, RREF_USER_ACCEPT Cluster.rref_0_1 Cluster.fork_1_2)] ∧
  nextLocalId_ (after_all Cluster.worker0_history (initial Cluster.worker0))
    = 5.
Proof. split; by vm_compute. Qed.
